(** * OpenTTD, src/os/macosx/crashlog_osx.cpp: the OS X crash log handler

    A shallow embedding of the crash handler (HandleCrash), of the crash
    logger class CrashLogOSX (LogOSVersion, LogError, LogStacktrace,
    MakeCrashLog, DisplayCrashDialog) and of the bounded string primitive
    they write through, followed by the properties the specification
    states about them. *)

From Stdlib Require Import ZArith List String Ascii Lia Bool.
From Stdlib Require DecimalString HexadecimalString DecimalZ.
From Stdlib Require DecimalPos HexadecimalFacts HexadecimalPos HexadecimalN.
Import ListNotations.

Open Scope string_scope.
Open Scope list_scope.
Open Scope Z_scope.

(** Concatenation of texts; [++] is kept for lists. *)
Infix "+++" := String.append (right associativity, at level 60).

(* ================================================================== *)
(** * Text and printf conversions *)
(* ================================================================== *)

Definition NUL : ascii := Ascii.zero.

(** The newline of the C string literals. *)
Definition nl : string := String (ascii_of_nat 10) EmptyString.

Definition chars (s : string) : list ascii := list_ascii_of_string s.

Definition strlen (s : string) : Z := Z.of_nat (String.length s).

Fixpoint replicate (n : nat) (c : ascii) : string :=
  match n with
  | O => EmptyString
  | S n' => String c (replicate n' c)
  end.

(** Pad on the left with [c] up to the minimum field width [w]. *)
Definition pad_left (c : ascii) (w : nat) (s : string) : string :=
  replicate (w - String.length s) c +++ s.

(** Pad on the right with blanks up to the minimum field width [w]. *)
Definition pad_right (w : nat) (s : string) : string :=
  s +++ replicate (w - String.length s) " ".

(** [%d] and [%ld]. *)
Definition fmt_d (z : Z) : string :=
  DecimalString.NilZero.string_of_int (Z.to_int z).

(** [%02d]: the sign counts in the field width. *)
Definition fmt_02d (z : Z) : string :=
  if z <? 0 then "-" +++ pad_left "0" 1 (fmt_d (- z))
  else pad_left "0" 2 (fmt_d z).

(** [%-20s]. *)
Definition fmt_s20 (s : string) : string := pad_right 20 s.

(** [%lx] of an unsigned value. *)
Definition fmt_x (z : Z) : string :=
  HexadecimalString.NilZero.string_of_uint (N.to_hex_uint (Z.to_N z)).

(** Reading a rendered decimal back, to state what a [%ld] field denotes. *)
Definition read_d (s : string) : option Z :=
  option_map Z.of_int (DecimalString.NilZero.int_of_string s).

(* ================================================================== *)
(** * Target configuration: the preprocessor conditions of the file *)
(* ================================================================== *)

Inductive Arch := I386 | X86_64 | PPC | PPC64 | ARM64.

(** [defined(__ppc__) || defined(__ppc64__)] *)
Definition is_ppc (a : Arch) : bool :=
  match a with PPC | PPC64 => true | _ => false end.

(** [defined(__i386__)] *)
Definition is_i386 (a : Arch) : bool :=
  match a with I386 => true | _ => false end.

(** [__LP64__] *)
Definition is_lp64 (a : Arch) : bool :=
  match a with X86_64 | PPC64 | ARM64 => true | _ => false end.

(** Width of [void *], [uintptr_t], [intptr_t] and [long]. *)
Definition ptr_bits (a : Arch) : Z := if is_lp64 a then 64 else 32.

Definition sizeof_ptr (a : Arch) : Z := ptr_bits a / 8.

(** The cast [(uintptr_t)x]. *)
Definition uintptr_t (a : Arch) (x : Z) : Z := x mod 2 ^ ptr_bits a.

(** The cast [(intptr_t)x], also the wrap-around of a [long] result. *)
Definition intptr_t (a : Arch) (x : Z) : Z :=
  let u := x mod 2 ^ ptr_bits a in
  if u <? 2 ^ (ptr_bits a - 1) then u else u - 2 ^ ptr_bits a.

(** [IS_ALIGNED(addr)] *)
Definition IS_ALIGNED (a : Arch) (addr : Z) : bool :=
  if is_i386 a then Z.land (uintptr_t a addr) 15 =? 8
  else Z.land (uintptr_t a addr) 15 =? 0.

(** [PRINTF_PTR] applied to a [uintptr_t]. *)
Definition PRINTF_PTR (a : Arch) (p : Z) : string :=
  if is_lp64 a then "0x" +++ pad_left "0" 16 (fmt_x (uintptr_t a p))
  else "0x" +++ pad_left "0" 8 (fmt_x (uintptr_t a p)).

Definition MAX_STACK_FRAMES : Z := 64.

(* ================================================================== *)
(** * The faulting process as the stack walk sees it *)
(* ================================================================== *)

(** [Dl_info] of <dlfcn.h>; a null [const char *] is [None], a null
    [dli_saddr] is [0]. *)
Record Dl_info := {
  dli_fname : option string;
  dli_sname : option string;
  dli_saddr : Z
}.

Record Platform := {
  arch : Arch;
  (** [__builtin_frame_address(0)], or r1 on PowerPC *)
  frame_address : Z;
  (** the word stored at each address *)
  memory : Z -> Z;
  (** [dladdr]: [None] when it returns 0 *)
  dladdr : Z -> option Dl_info;
  (** [abi::__cxa_demangle]: [None] when it returns a null pointer *)
  cxa_demangle : string -> option string
}.

(** [frame[k]] for a [void **frame]. *)
Definition frame_slot (P : Platform) (frame k : Z) : Z :=
  uintptr_t (arch P)
    (memory P (uintptr_t (arch P) (frame + k * sizeof_ptr (arch P)))).

(** Slot of the saved instruction pointer. *)
Definition ip_slot (a : Arch) : Z := if is_ppc a then 2 else 1.

(** The loop of LogStacktrace.  [visit i frame ip] stands for the body
    between the null test of [ip] and the read of the next frame; [s] is
    whatever that body updates.  [fuel] bounds the unfolding only: the
    loop leaves through its own tests (see [frames_loop_fuel]). *)
Fixpoint frames_loop {St : Type} (P : Platform)
    (visit : Z -> Z -> Z -> St -> St)
    (fuel : nat) (i frame : Z) (s : St) : St :=
  match fuel with
  | O => s
  | S fuel' =>
    if negb (frame =? 0) && (i <? MAX_STACK_FRAMES) then
      let ip := frame_slot P frame (ip_slot (arch P)) in
      if ip =? 0 then s
      else
        let s := visit i frame ip s in
        let next := frame_slot P frame 0 in
        if (next <=? frame) || negb (IS_ALIGNED (arch P) next) then s
        else frames_loop P visit fuel' (i + 1) next s
    else s
  end.

(** One visited frame: running index, frame pointer, return address. *)
Definition Frame : Type := Z * Z * Z.

(** A body that only records the frame it is run on. *)
Definition collect (i frame ip : Z) (acc : list Frame) : list Frame :=
  acc ++ [(i, frame, ip)].

(** The frames the loop visits, in order. *)
Definition Walk (P : Platform) (fuel : nat) (i frame : Z) : list Frame :=
  frames_loop P collect fuel i frame [].

Definition WalkFrom (P : Platform) : list Frame :=
  Walk P (Z.to_nat MAX_STACK_FRAMES) 0 (uintptr_t (arch P) (frame_address P)).

Definition index_of (f : Frame) : Z := fst (fst f).
Definition frame_of (f : Frame) : Z := snd (fst f).
Definition ip_of (f : Frame) : Z := snd f.

(** [frame[0]], the link to the frame of the caller, and the saved
    instruction pointer of a frame. *)
Definition link (P : Platform) (frame : Z) : Z := frame_slot P frame 0.

Definition return_address (P : Platform) (frame : Z) : Z :=
  frame_slot P frame (ip_slot (arch P)).

(** One of the three ends of the walk is met behind [frame]: its link
    does not point strictly upwards, or is not aligned, or leads to a
    frame whose return address is null. *)
Definition stops_behind (P : Platform) (frame : Z) : bool :=
  (link P frame <=? frame)
  || negb (IS_ALIGNED (arch P) (link P frame))
  || (return_address P (link P frame) =? 0).

(** Each frame of [rest] is the one the link of the frame before it
    points to, strictly above it and aligned. *)
Fixpoint follows (P : Platform) (frame : Z) (rest : list Z) : Prop :=
  match rest with
  | [] => True
  | next :: rest' =>
    next = link P frame /\ frame < next /\
    IS_ALIGNED (arch P) next = true /\ follows P next rest'
  end.

(** A chain of frames laid out in memory: every frame links to the next
    one, which lies strictly above it and is aligned. *)
Fixpoint chain_linked (P : Platform) (fs : list Z) : bool :=
  match fs with
  | f :: (f' :: _) as rest =>
    (link P f =? f') && (f <? f') && IS_ALIGNED (arch P) f'
    && chain_linked P rest
  | _ => true
  end.

(** A synthetic chain of the frames 0 to N with a cycle: the walk starts
    at frame 0, every frame has a return address, and the link of frame N
    points back to frame N - 2. *)
Definition synthetic_cycle (P : Platform) (fs : list Z) (N : nat) : bool :=
  (List.length fs =? N + 1)%nat && (2 <=? N)%nat
  && (nth 0 fs 0 =? uintptr_t (arch P) (frame_address P))
  && (0 <? nth 0 fs 0)
  && chain_linked P fs
  && forallb (fun f => negb (return_address P f =? 0)) fs
  && (link P (nth N fs 0) =? nth (N - 2) fs 0).

(** The same process with another demangler. *)
Definition with_demangle (P : Platform) (demangle : string -> option string)
    : Platform :=
  {| arch := arch P;
     frame_address := frame_address P;
     memory := memory P;
     dladdr := dladdr P;
     cxa_demangle := demangle |}.

(* ================================================================== *)
(** * Character arrays and the bounded append primitive *)
(* ================================================================== *)

(** A [char] array is the list of its bytes; a computation over it either
    steps outside the array ([None]) or yields a result and the array. *)
Definition CharArray : Type := list ascii.

Definition M (A : Type) : Type := CharArray -> option (A * CharArray).

Definition ret {A : Type} (a : A) : M A := fun mem => Some (a, mem).

Definition bind {A B : Type} (m : M A) (f : A -> M B) : M B :=
  fun mem => match m mem with
             | Some (a, mem') => f a mem'
             | None => None
             end.

Notation "x <- m ;; k" := (bind m (fun x => k))
  (at level 61, m at next level, right associativity).

(** Store the bytes [bs] at offsets [pos], [pos + 1], ... of the array. *)
Definition store_bytes (pos : Z) (bs : list ascii) : M unit :=
  fun mem =>
    if (0 <=? pos) && (pos + Z.of_nat (List.length bs) <=? Z.of_nat (List.length mem))
    then Some (tt, firstn (Z.to_nat pos) mem ++ bs
                     ++ skipn (Z.to_nat pos + List.length bs) mem)
    else None.

(** [vsnprintf(str, size, ...)] of the C library, on the formatted text:
    at most [size - 1] characters and a terminating NUL are stored, the
    length of the whole text is returned. *)
Definition vsnprintf (str size : Z) (text : string) : M Z :=
  if size <=? 0 then ret (strlen text)
  else
    _ <- store_bytes str (firstn (Z.to_nat (size - 1)) (chars text) ++ [NUL]) ;;
    ret (strlen text).

(** Modelled from the spec: seprintf of string_func.h, which is not part of the
    sources at hand.  It is the bounded append primitive of the report buffer:
    the formatted text is written at [str], nothing is written behind
    [last], what does not fit is dropped without any failure, and the
    number of characters written (the terminating NUL apart) is returned. *)
Definition seprintf (str last : Z) (text : string) : M Z :=
  let diff := last - str in
  if diff <? 0 then ret 0
  else
    n <- vsnprintf str (diff + 1) text ;;
    ret (Z.min diff n).

(** The C string that starts at offset [pos] of the array. *)
Fixpoint until_nul (l : list ascii) : string :=
  match l with
  | [] => EmptyString
  | c :: l' => if Ascii.eqb c NUL then EmptyString else String c (until_nul l')
  end.

Definition c_str (mem : CharArray) (pos : Z) : string :=
  until_nul (skipn (Z.to_nat pos) mem).

(** [lastof(array)] as an offset into the array. *)
Definition lastof (mem : CharArray) : Z := Z.of_nat (List.length mem) - 1.

(** A local array of [n] chars that nothing has initialised: [junk] is
    whatever the stack holds there. *)
Definition local_array (junk : nat -> ascii) (n : Z) : CharArray :=
  map junk (seq 0 (Z.to_nat n)).

(* ================================================================== *)
(** * class CrashLogOSX: the report sections *)
(* ================================================================== *)

(** What the sections read from outside this file. *)
Record Host := {
  platform : Platform;
  (** GetMacOSVersion *)
  ver_maj : Z;
  ver_min : Z;
  ver_bug : Z;
  (** [NXGetLocalArchInfo()->description], [None] for a null [arch] *)
  arch_description : option string;
  MAC_OS_X_VERSION_MIN_REQUIRED : Z;
  MAC_OS_X_VERSION_MAX_ALLOWED : Z;
  strsignal : Z -> string;
  (** CrashLog::message *)
  crash_message : string;
  (** the sections the base class appends after the three of this file *)
  other_sections : list string
}.

(** The formatted text of LogOSVersion. *)
Definition os_version_text (H : Host) : string :=
  "Operating system:" +++ nl +++
  " Name:     Mac OS X" +++ nl +++
  " Release:  " +++ fmt_d (ver_maj H) +++ "." +++ fmt_d (ver_min H)
                +++ "." +++ fmt_d (ver_bug H) +++ nl +++
  " Machine:  " +++ match arch_description H with
                    | Some d => d
                    | None => "unknown"
                    end +++ nl +++
  " Min Ver:  " +++ fmt_d (MAC_OS_X_VERSION_MIN_REQUIRED H) +++ nl +++
  " Max Ver:  " +++ fmt_d (MAC_OS_X_VERSION_MAX_ALLOWED H) +++ nl.

(** CrashLogOSX::LogOSVersion *)
Definition LogOSVersion (H : Host) (buffer last : Z) : M Z :=
  n <- seprintf buffer last (os_version_text H) ;;
  ret (buffer + n).

(** The formatted text of LogError. *)
Definition error_text (H : Host) (signum : Z) (message : string) : string :=
  "Crash reason:" +++ nl +++
  " Signal:  " +++ strsignal H signum +++ " (" +++ fmt_d signum
               +++ ")" +++ nl +++
  " Message: " +++ message +++ nl +++ nl.

(** CrashLogOSX::LogError *)
Definition LogError (H : Host) (signum : Z) (buffer last : Z)
    (message : string) : M Z :=
  n <- seprintf buffer last (error_text H signum message) ;;
  ret (buffer + n).

(** [strrchr(s, c)] for a [c] other than NUL: the part of [s] from the
    last [c] on. *)
Fixpoint strrchr (s : string) (c : ascii) : option string :=
  match s with
  | EmptyString => None
  | String a s' =>
    match strrchr s' c with
    | Some r => Some r
    | None => if Ascii.eqb a c then Some s else None
    end
  end.

(** [s + 1] for a [const char *s] that points at a character. *)
Definition next_char (s : string) : string :=
  match s with
  | EmptyString => EmptyString
  | String _ s' => s'
  end.

(** The [fname] of the loop body. *)
Definition image_name (dl : option Dl_info) : string :=
  match dl with
  | Some dli =>
    match dli_fname dli with
    | Some path =>
      match strrchr path "/" with
      | Some s => next_char s
      | None => path
      end
    | None => "???"
    end
  | None => "???"
  end.

(** [dl_valid && dli.dli_sname != nullptr && dli.dli_saddr != nullptr],
    with the two fields when it holds. *)
Definition symbol_info (dl : option Dl_info) : option (string * Z) :=
  match dl with
  | Some dli =>
    match dli_sname dli with
    | Some sname => if dli_saddr dli =? 0 then None
                    else Some (sname, dli_saddr dli)
    | None => None
    end
  | None => None
  end.

(** [long int offset = (intptr_t)ip - (intptr_t)dli.dli_saddr] *)
Definition symbol_offset (a : Arch) (ip saddr : Z) : Z :=
  intptr_t a (intptr_t a ip - intptr_t a saddr).

(** The text of [" (%s + %ld)"]. *)
Definition symbol_text (P : Platform) (ip : Z) (sname : string) (saddr : Z)
    : string :=
  let func_name := cxa_demangle P sname in
  let offset := symbol_offset (arch P) ip saddr in
  " (" +++ match func_name with
           | Some demangled => demangled
           | None => sname
           end +++ " + " +++ fmt_d offset +++ ")".

(** The text of [" [%02d]"]. *)
Definition index_text (i : Z) : string := " [" +++ fmt_02d i +++ "]".

(** The text of [" %-20s " PRINTF_PTR]. *)
Definition image_text (P : Platform) (ip : Z) : string :=
  " " +++ fmt_s20 (image_name (dladdr P ip)) +++ " " +++ PRINTF_PTR (arch P) ip.

(** The body of the loop of LogStacktrace for one frame. *)
Definition log_frame (P : Platform) (last : Z) (i ip : Z) (buffer : Z) : M Z :=
  n <- seprintf buffer last (index_text i) ;;
  let buffer := buffer + n in
  let dl := dladdr P ip in
  n <- seprintf buffer last (image_text P ip) ;;
  let buffer := buffer + n in
  buffer <- match symbol_info dl with
            | Some (sname, saddr) =>
              n <- seprintf buffer last (symbol_text P ip sname saddr) ;;
              ret (buffer + n)
            | None => ret buffer
            end ;;
  n <- seprintf buffer last nl ;;
  ret (buffer + n).

(** The opening line of the section. *)
Definition stacktrace_header : string := nl +++ "Stacktrace:" +++ nl.

(** CrashLogOSX::LogStacktrace *)
Definition LogStacktrace (P : Platform) (buffer last : Z) : M Z :=
  n <- seprintf buffer last stacktrace_header ;;
  let buffer := buffer + n in
  let frame := uintptr_t (arch P) (frame_address P) in
  buffer <- frames_loop P
              (fun i _ ip run => buffer <- run ;; log_frame P last i ip buffer)
              (Z.to_nat MAX_STACK_FRAMES) 0 frame (ret buffer) ;;
  n <- seprintf buffer last nl ;;
  ret (buffer + n).

(** A sequence of text blocks, each appended through seprintf. *)
Fixpoint append_sections (last : Z) (blocks : list string) (buffer : Z) : M Z :=
  match blocks with
  | [] => ret buffer
  | block :: blocks' =>
    n <- seprintf buffer last block ;;
    append_sections last blocks' (buffer + n)
  end.

(** Modelled from the spec: CrashLog::FillCrashLog of crashlog.cpp, which is
    not part of the sources at hand.  The sections come in the fixed order
    environment, cause, stack trace; the further sections of the base
    class follow as text blocks, each through the bounded append. *)
Definition FillCrashLog (H : Host) (signum : Z) (buffer last : Z) : M Z :=
  buffer <- LogOSVersion H buffer last ;;
  buffer <- LogError H signum buffer last (crash_message H) ;;
  buffer <- LogStacktrace (platform H) buffer last ;;
  append_sections last (other_sections H) buffer.

(* ================================================================== *)
(** * The process around the handler *)
(* ================================================================== *)

(** Signal numbers of <signal.h> on OS X. *)
Definition SIGILL : Z := 4.
Definition SIGABRT : Z := 6.
Definition SIGFPE : Z := 8.
Definition SIGBUS : Z := 10.
Definition SIGSEGV : Z := 11.
Definition SIGSYS : Z := 12.

(** What a signal is bound to: the default action, or HandleCrash. *)
Inductive Disposition := SIG_DFL | SIG_HandleCrash.

(** The calls that leave this file, in the order they are made. *)
Inductive Event :=
| EvSignal (sig : Z) (d : Disposition)
| EvGamelogTestEmergency (r : bool)
| EvSaveloadCrashWithMissingNewGRFs (r : bool)
| EvShowMacDialog (title message button : string)
| EvPrintf (text : string)
| EvFillCrashLog (signum : Z)
| EvWriteCrashLog (report : string) (ok : bool)
| EvWriteSavegame (ok : bool)
| EvWriteScreenshot (ok : bool)
| EvAfterCrashLogCleanup
| EvAbort.

(** The functions of the game the handler calls, by what they answer. *)
Record Env := {
  host : Host;
  env_GamelogTestEmergency : bool;
  env_SaveloadCrashWithMissingNewGRFs : bool;
  (** [VideoDriver::GetInstance()]: [None] for a null pointer, else what
      [HasGUI()] answers *)
  env_VideoDriver : option bool;
  (** CrashLog::WriteCrashLog, given the report and the file name buffer:
      success, and the C string it leaves in the buffer *)
  env_WriteCrashLog : string -> string -> bool * string;
  (** CrashLog::WriteSavegame, given the file name buffer *)
  env_WriteSavegame : string -> bool * string;
  (** CrashLog::WriteScreenshot, given the file name buffer *)
  env_WriteScreenshot : string -> bool * string;
  (** what the stack holds where local arrays are placed *)
  stack_junk : nat -> ascii
}.

(** How a piece of the handler ends: it returns, the process is ended by
    abort(), or a store left its array. *)
Inductive Outcome (A : Type) :=
| Returned (a : A) (trace : list Event)
| Aborted (trace : list Event)
| Fault (trace : list Event).

Arguments Returned {A} a trace.
Arguments Aborted {A} trace.
Arguments Fault {A} trace.

Definition Proc (A : Type) : Type := list Event -> Outcome A.

Definition pure {A : Type} (a : A) : Proc A := fun tr => Returned a tr.

Definition pbind {A B : Type} (p : Proc A) (f : A -> Proc B) : Proc B :=
  fun tr => match p tr with
            | Returned a tr' => f a tr'
            | Aborted tr' => Aborted tr'
            | Fault tr' => Fault tr'
            end.

Notation "x <~ p ;; k" := (pbind p (fun x => k))
  (at level 61, p at next level, right associativity).

Definition emit (e : Event) : Proc unit := fun tr => Returned tt (tr ++ [e]).

(** [abort()]: it does not return. *)
Definition abort {A : Type} : Proc A := fun tr => Aborted (tr ++ [EvAbort]).

(** A computation over a local array, inside the process. *)
Definition on_array {A : Type} (mem : CharArray) (m : M A)
    : Proc (A * CharArray) :=
  fun tr => match m mem with
            | Some r => Returned r tr
            | None => Fault tr
            end.

Definition trace_of {A : Type} (o : Outcome A) : list Event :=
  match o with
  | Returned _ tr => tr
  | Aborted tr => tr
  | Fault tr => tr
  end.

Definition signal (sig : Z) (d : Disposition) : Proc unit :=
  emit (EvSignal sig d).

Definition printf (text : string) : Proc unit := emit (EvPrintf text).

Definition ShowMacDialog (title message button : string) : Proc unit :=
  emit (EvShowMacDialog title message button).

Definition GamelogTestEmergency (E : Env) : Proc bool :=
  _ <~ emit (EvGamelogTestEmergency (env_GamelogTestEmergency E)) ;;
  pure (env_GamelogTestEmergency E).

Definition SaveloadCrashWithMissingNewGRFs (E : Env) : Proc bool :=
  _ <~ emit (EvSaveloadCrashWithMissingNewGRFs
               (env_SaveloadCrashWithMissingNewGRFs E)) ;;
  pure (env_SaveloadCrashWithMissingNewGRFs E).

(** A C string ends at its first NUL. *)
Definition as_c_string (s : string) : string := until_nul (chars s).

Definition WriteCrashLog (E : Env) (report filename : string)
    : Proc (bool * string) :=
  let (ok, left) := env_WriteCrashLog E report filename in
  _ <~ emit (EvWriteCrashLog report ok) ;;
  pure (ok, as_c_string left).

Definition WriteSavegame (E : Env) (filename : string) : Proc (bool * string) :=
  let (ok, left) := env_WriteSavegame E filename in
  _ <~ emit (EvWriteSavegame ok) ;;
  pure (ok, as_c_string left).

Definition WriteScreenshot (E : Env) (filename : string)
    : Proc (bool * string) :=
  let (ok, left) := env_WriteScreenshot E filename in
  _ <~ emit (EvWriteScreenshot ok) ;;
  pure (ok, as_c_string left).

Definition AfterCrashLogCleanup : Proc unit := emit EvAfterCrashLogCleanup.

(** The fields of a CrashLogOSX object; each file name is the C string
    its buffer holds. *)
Record CrashLogOSX := {
  signum : Z;
  filename_log : string;
  filename_save : string;
  filename_screenshot : string
}.

(** CrashLogOSX::CrashLogOSX *)
Definition CrashLogOSX_new (signum : Z) : CrashLogOSX :=
  {| signum := signum;
     filename_log := "";
     filename_save := "";
     filename_screenshot := "" |}.

Definition set_filename_log (this : CrashLogOSX) (s : string) : CrashLogOSX :=
  {| signum := signum this;
     filename_log := s;
     filename_save := filename_save this;
     filename_screenshot := filename_screenshot this |}.

Definition set_filename_save (this : CrashLogOSX) (s : string) : CrashLogOSX :=
  {| signum := signum this;
     filename_log := filename_log this;
     filename_save := s;
     filename_screenshot := filename_screenshot this |}.

Definition set_filename_screenshot (this : CrashLogOSX) (s : string)
    : CrashLogOSX :=
  {| signum := signum this;
     filename_log := filename_log this;
     filename_save := filename_save this;
     filename_screenshot := s |}.

(** CrashLogOSX::MakeCrashLog *)
Definition MakeCrashLog (E : Env) (this : CrashLogOSX)
    : Proc (bool * CrashLogOSX) :=
  let buffer := local_array (stack_junk E) 65536 in
  let ret := true in
  _ <~ printf ("Crash encountered, generating crash log..." +++ nl) ;;
  _ <~ emit (EvFillCrashLog (signum this)) ;;
  filled <~ on_array buffer
              (FillCrashLog (host E) (signum this) 0 (lastof buffer)) ;;
  let buffer := snd filled in
  _ <~ printf (c_str buffer 0 +++ nl) ;;
  _ <~ printf ("Crash log generated." +++ nl +++ nl) ;;
  _ <~ printf ("Writing crash log to disk..." +++ nl) ;;
  r <~ WriteCrashLog E (c_str buffer 0) (filename_log this) ;;
  let this := set_filename_log this (snd r) in
  let this := if negb (fst r) then set_filename_log this "" else this in
  let ret := if negb (fst r) then false else ret in
  _ <~ printf ("Writing crash savegame..." +++ nl) ;;
  r <~ WriteSavegame E (filename_save this) ;;
  let this := set_filename_save this (snd r) in
  let this := if negb (fst r) then set_filename_save this "" else this in
  let ret := if negb (fst r) then false else ret in
  _ <~ printf ("Writing crash screenshot..." +++ nl) ;;
  r <~ WriteScreenshot E (filename_screenshot this) ;;
  let this := set_filename_screenshot this (snd r) in
  let this := if negb (fst r) then set_filename_screenshot this "" else this in
  let ret := if negb (fst r) then false else ret in
  pure (ret, this).

Definition crash_title : string :=
  "A serious fault condition occurred in the game. The game will shut down.".

(** The formatted text of the dialog, before it is cut to the array. *)
Definition dialog_text (this : CrashLogOSX) : string :=
  "Please send the generated crash information and the last (auto)save to the developers. "
  +++ "This will greatly help debugging. The correct place to do this is https://github.com/OpenTTD/OpenTTD/issues."
  +++ nl +++ nl
  +++ "Generated file(s):" +++ nl
  +++ filename_log this +++ nl
  +++ filename_save this +++ nl
  +++ filename_screenshot this.

(** CrashLogOSX::DisplayCrashDialog *)
Definition DisplayCrashDialog (E : Env) (this : CrashLogOSX) : Proc unit :=
  let message := local_array (stack_junk E) 1024 in
  written <~ on_array message
               (seprintf 0 (lastof message) (dialog_text this)) ;;
  let message := snd written in
  ShowMacDialog crash_title (c_str message 0) "Quit".

(** [_signals_to_handle] *)
Definition _signals_to_handle : list Z :=
  [SIGSEGV; SIGABRT; SIGFPE; SIGBUS; SIGILL; SIGSYS].

(** The loop over [_signals_to_handle] that binds each signal to [d]. *)
Fixpoint signal_all (sigs : list Z) (d : Disposition) : Proc unit :=
  match sigs with
  | [] => pure tt
  | sig :: sigs' => _ <~ signal sig d ;; signal_all sigs' d
  end.

(** HandleCrash *)
Definition HandleCrash (E : Env) (signum : Z) : Proc unit :=
  _ <~ signal_all _signals_to_handle SIG_DFL ;;
  emergency <~ GamelogTestEmergency E ;;
  _ <~ (if emergency then
          _ <~ ShowMacDialog
                 "A serious fault condition occurred in the game. The game will shut down."
                 ("As you loaded an emergency savegame no crash information will be generated." +++ nl)
                 "Quit" ;;
          abort
        else pure tt) ;;
  missing <~ SaveloadCrashWithMissingNewGRFs E ;;
  _ <~ (if missing then
          _ <~ ShowMacDialog
                 "A serious fault condition occurred in the game. The game will shut down."
                 ("As you loaded an savegame for which you do not have the required NewGRFs no crash information will be generated." +++ nl)
                 "Quit" ;;
          abort
        else pure tt) ;;
  let log := CrashLogOSX_new signum in
  made <~ MakeCrashLog E log ;;
  let log := snd made in
  _ <~ (match env_VideoDriver E with
        | None => DisplayCrashDialog E log
        | Some has_gui => if has_gui then DisplayCrashDialog E log else pure tt
        end) ;;
  _ <~ AfterCrashLogCleanup ;;
  abort.

(** CrashLog::InitialiseCrashLog *)
Definition InitialiseCrashLog : Proc unit :=
  signal_all _signals_to_handle SIG_HandleCrash.

(** The signal table after the calls of a trace, from the table [tbl]. *)
Fixpoint dispositions (tbl : Z -> Disposition) (tr : list Event)
    : Z -> Disposition :=
  match tr with
  | [] => tbl
  | EvSignal sig d :: tr' =>
    dispositions (fun s => if s =? sig then d else tbl s) tr'
  | _ :: tr' => dispositions tbl tr'
  end.

(** What the delivery of [sig] does under a signal table. *)
Inductive Delivery := Terminates | EntersHandleCrash.

Definition deliver (tbl : Z -> Disposition) (sig : Z) : Delivery :=
  match tbl sig with
  | SIG_DFL => Terminates
  | SIG_HandleCrash => EntersHandleCrash
  end.

(* ================================================================== *)
(** * The text a section stands for, the array bounds left aside *)
(* ================================================================== *)

Fixpoint concat_text (l : list string) : string :=
  match l with
  | [] => EmptyString
  | s :: l' => s +++ concat_text l'
  end.

(** The line of one visited frame. *)
Definition frame_text (P : Platform) (f : Frame) : string :=
  let '(i, _, ip) := f in
  index_text i +++ image_text P ip +++
  match symbol_info (dladdr P ip) with
  | Some (sname, saddr) => symbol_text P ip sname saddr
  | None => EmptyString
  end +++ nl.

Definition stacktrace_text (P : Platform) : string :=
  stacktrace_header +++ concat_text (map (frame_text P) (WalkFrom P)) +++ nl.

Definition report_text (H : Host) (signum : Z) : string :=
  os_version_text H +++ error_text H signum (crash_message H)
  +++ stacktrace_text (platform H) +++ concat_text (other_sections H).

(** The first [n] characters of a text. *)
Definition cut (n : Z) (s : string) : string :=
  string_of_list_ascii (firstn (Z.to_nat n) (chars s)).

(** The array [mem] of [cap] chars holds the text [t] appended from its
    start, cut to the [cap - 1] characters that leave room for the NUL,
    and [buffer] is the write cursor behind it. *)
Record Holds (cap : Z) (t : string) (buffer : Z) (mem : CharArray) : Prop := {
  holds_cap : Z.of_nat (List.length mem) = cap;
  holds_range : 0 <= buffer <= cap - 1;
  holds_cursor : buffer = Z.min (strlen t) (cap - 1);
  holds_content :
    firstn (Z.to_nat buffer) mem = firstn (Z.to_nat (cap - 1)) (chars t)
}.

(** The byte under the cursor is the terminating NUL. *)
Definition Terminated (mem : CharArray) (buffer : Z) : Prop :=
  nth_error mem (Z.to_nat buffer) = Some NUL.

(** A piece of code that takes and returns the cursor appends the text
    [s]: it stays inside the array, and the array then holds [s] behind
    what it held.  With [writes] the piece stores at least once, and so
    leaves the text terminated. *)
Definition Appends (cap : Z) (writes : bool) (c : Z -> M Z) (s : string)
    : Prop :=
  forall t buffer mem,
    Holds cap t buffer mem ->
    exists buffer' mem',
      c buffer mem = Some (buffer', mem') /\
      Holds cap (t +++ s) buffer' mem' /\
      (writes = true \/ Terminated mem buffer -> Terminated mem' buffer').

Definition no_nul (s : string) : Prop := ~ In NUL (chars s).

(** The report MakeCrashLog prints and writes: the C string its buffer
    holds after FillCrashLog. *)
Definition report_of (E : Env) (signum : Z) : string :=
  let buffer := local_array (stack_junk E) 65536 in
  match FillCrashLog (host E) signum 0 (lastof buffer) buffer with
  | Some (_, mem) => c_str mem 0
  | None => EmptyString
  end.

(** The message DisplayCrashDialog shows: the C string of its array. *)
Definition dialog_message (E : Env) (this : CrashLogOSX) : string :=
  let message := local_array (stack_junk E) 1024 in
  match seprintf 0 (lastof message) (dialog_text this) message with
  | Some (_, mem) => c_str mem 0
  | None => EmptyString
  end.

(** Run from the start of the array [mem], the code [c] writes the text
    [text] within bounds: it stays inside the array, which keeps its
    size; the array then holds the text cut to the room there is, with
    the NUL behind it; and when the text does not fit, the cut text and
    its NUL fill the array to its last byte. *)
Definition BoundedWrite (mem : CharArray) (c : M Z) (text : string) : Prop :=
  let cap := Z.of_nat (List.length mem) in
  exists buffer' mem',
    c mem = Some (buffer', mem') /\
    List.length mem' = List.length mem /\
    buffer' = Z.min (strlen text) (cap - 1) /\
    firstn (Z.to_nat buffer') mem' = firstn (Z.to_nat (cap - 1)) (chars text) /\
    nth_error mem' (Z.to_nat buffer') = Some NUL /\
    (cap - 1 <= strlen text -> buffer' + 1 = cap) /\
    (no_nul text -> c_str mem' 0 = cut (cap - 1) text).

(* ================================================================== *)
(** * What a run of the handler amounts to *)
(* ================================================================== *)

(** The answers of the three writers to the calls MakeCrashLog makes. *)
Definition log_written (E : Env) (this : CrashLogOSX) : bool * string :=
  env_WriteCrashLog E (report_of E (signum this)) (filename_log this).

Definition save_written (E : Env) (this : CrashLogOSX) : bool * string :=
  env_WriteSavegame E (filename_save this).

Definition shot_written (E : Env) (this : CrashLogOSX) : bool * string :=
  env_WriteScreenshot E (filename_screenshot this).

(** The path a buffer holds once MakeCrashLog is done with its writer. *)
Definition kept_path (r : bool * string) : string :=
  if fst r then as_c_string (snd r) else EmptyString.

(** The object after MakeCrashLog. *)
Definition made_log (E : Env) (this : CrashLogOSX) : CrashLogOSX :=
  {| signum := signum this;
     filename_log := kept_path (log_written E this);
     filename_save := kept_path (save_written E this);
     filename_screenshot := kept_path (shot_written E this) |}.

(** The calls of MakeCrashLog. *)
Definition made_events (E : Env) (this : CrashLogOSX) : list Event :=
  [ EvPrintf ("Crash encountered, generating crash log..." +++ nl);
    EvFillCrashLog (signum this);
    EvPrintf (report_of E (signum this) +++ nl);
    EvPrintf ("Crash log generated." +++ nl +++ nl);
    EvPrintf ("Writing crash log to disk..." +++ nl);
    EvWriteCrashLog (report_of E (signum this)) (fst (log_written E this));
    EvPrintf ("Writing crash savegame..." +++ nl);
    EvWriteSavegame (fst (save_written E this));
    EvPrintf ("Writing crash screenshot..." +++ nl);
    EvWriteScreenshot (fst (shot_written E this)) ].

(** The calls that restore the default dispositions. *)
Definition restore_events : list Event :=
  map (fun sig => EvSignal sig SIG_DFL) _signals_to_handle.

(** The notices of the two guarded exits. *)
Definition emergency_notice : Event :=
  EvShowMacDialog crash_title
    ("As you loaded an emergency savegame no crash information will be generated." +++ nl)
    "Quit".

Definition newgrf_notice : Event :=
  EvShowMacDialog crash_title
    ("As you loaded an savegame for which you do not have the required NewGRFs no crash information will be generated." +++ nl)
    "Quit".

(** The dialog of the full report, when the video driver allows one. *)
Definition shows_dialog (E : Env) : bool :=
  match env_VideoDriver E with
  | None => true
  | Some has_gui => has_gui
  end.

Definition dialog_events (E : Env) (log : CrashLogOSX) : list Event :=
  if shows_dialog E
  then [EvShowMacDialog crash_title (dialog_message E log) "Quit"]
  else [].

(** Kinds of calls, to count them in a trace. *)
Definition is_restore (e : Event) : bool :=
  match e with EvSignal _ SIG_DFL => true | _ => false end.

Definition is_signal_call (e : Event) : bool :=
  match e with EvSignal _ _ => true | _ => false end.

Definition is_report_call (e : Event) : bool :=
  match e with EvFillCrashLog _ => true | _ => false end.

Definition is_artifact_call (e : Event) : bool :=
  match e with
  | EvWriteCrashLog _ _ | EvWriteSavegame _ | EvWriteScreenshot _ => true
  | _ => false
  end.

Definition is_dialog (e : Event) : bool :=
  match e with EvShowMacDialog _ _ _ => true | _ => false end.

Definition is_cleanup (e : Event) : bool :=
  match e with EvAfterCrashLogCleanup => true | _ => false end.

Definition is_abort (e : Event) : bool :=
  match e with EvAbort => true | _ => false end.

Definition count (p : Event -> bool) (tr : list Event) : nat :=
  List.length (filter p tr).

(** A write that succeeded. *)
Definition is_written (e : Event) : bool :=
  match e with
  | EvWriteCrashLog _ ok | EvWriteSavegame ok | EvWriteScreenshot ok => ok
  | _ => false
  end.

Definition has_nul (s : string) : bool :=
  existsb (Ascii.eqb NUL) (chars s).

(** The writers keep to their contract when a write that succeeds
    leaves a path in its file name buffer. *)
Definition WritersFillPath (E : Env) : Prop :=
  (forall report filename,
      fst (env_WriteCrashLog E report filename) = true ->
      as_c_string (snd (env_WriteCrashLog E report filename)) <> EmptyString) /\
  (forall filename,
      fst (env_WriteSavegame E filename) = true ->
      as_c_string (snd (env_WriteSavegame E filename)) <> EmptyString) /\
  (forall filename,
      fst (env_WriteScreenshot E filename) = true ->
      as_c_string (snd (env_WriteScreenshot E filename)) <> EmptyString).

(** The three paths of an object, and how many of them are empty. *)
Definition paths (this : CrashLogOSX) : list string :=
  [filename_log this; filename_save this; filename_screenshot this].

Definition is_empty (s : string) : bool :=
  match s with EmptyString => true | _ => false end.

Definition empty_paths (this : CrashLogOSX) : nat :=
  List.length (filter is_empty (paths this)).

Definition filled_paths (this : CrashLogOSX) : nat :=
  List.length (filter (fun s => negb (is_empty s)) (paths this)).

(** The successes of the three writes of MakeCrashLog, in order. *)
Definition successes (E : Env) (this : CrashLogOSX) : list bool :=
  [fst (log_written E this); fst (save_written E this);
   fst (shot_written E this)].

Definition failures (E : Env) (this : CrashLogOSX) : nat :=
  List.length (filter negb (successes E this)).

(* ================================================================== *)
(** * Sample inputs *)
(* ================================================================== *)

(** Three frames at 1024, 2048 and 4096 with return addresses 77, 88 and
    99; the link of the third frame points back to the first. *)
Definition sample_memory (a : Z) : Z :=
  if a =? 1024 then 2048 else if a =? 1032 then 77
  else if a =? 2048 then 4096 else if a =? 2056 then 88
  else if a =? 4096 then 1024 else if a =? 4104 then 99
  else 0.

Definition sample_dladdr (ip : Z) : option Dl_info :=
  if ip =? 77 then
    Some {| dli_fname := Some "/usr/lib/libfoo.dylib";
            dli_sname := Some "_ZN3fooEv";
            dli_saddr := 100 |}
  else if ip =? 88 then
    Some {| dli_fname := Some "openttd"; dli_sname := None; dli_saddr := 0 |}
  else None.

Definition sample_platform : Platform :=
  {| arch := X86_64;
     frame_address := 1024;
     memory := sample_memory;
     dladdr := sample_dladdr;
     cxa_demangle := fun _ => None |}.

Definition sample_host : Host :=
  {| platform := sample_platform;
     ver_maj := 10; ver_min := 15; ver_bug := 7;
     arch_description := Some "Intel x86-64h Haswell";
     MAC_OS_X_VERSION_MIN_REQUIRED := 1090;
     MAC_OS_X_VERSION_MAX_ALLOWED := 101500;
     strsignal := fun _ => "Segmentation fault: 11";
     crash_message := "<none>";
     other_sections := [] |}.

(** The log and the screenshot are written, the savegame is not. *)
Definition sample_env (emergency missing : bool) (video : option bool) : Env :=
  {| host := sample_host;
     env_GamelogTestEmergency := emergency;
     env_SaveloadCrashWithMissingNewGRFs := missing;
     env_VideoDriver := video;
     env_WriteCrashLog := fun _ _ => (true, "/home/u/crash.log");
     env_WriteSavegame := fun _ => (false, "/home/u/crash.sav");
     env_WriteScreenshot := fun _ => (true, "/home/u/crash.png");
     stack_junk := fun _ => "x"%char |}.

(* ================================================================== *)
(** * The sections in any order, guards, and reading an address back *)
(* ================================================================== *)

(** The three sections of this file, as a caller may ask for them. *)
Inductive Part :=
| PartOSVersion
| PartError (message : string)
| PartStacktrace.

Definition run_part (H : Host) (signum last : Z) (p : Part) (buffer : Z)
    : M Z :=
  match p with
  | PartOSVersion => LogOSVersion H buffer last
  | PartError message => LogError H signum buffer last message
  | PartStacktrace => LogStacktrace (platform H) buffer last
  end.

(** [buffer = this->LogX(buffer, last);] for each part in turn. *)
Fixpoint run_parts (H : Host) (signum last : Z) (ps : list Part) (buffer : Z)
    : M Z :=
  match ps with
  | [] => ret buffer
  | p :: ps' =>
    buffer <- run_part H signum last p buffer ;;
    run_parts H signum last ps' buffer
  end.

Definition part_text (H : Host) (signum : Z) (p : Part) : string :=
  match p with
  | PartOSVersion => os_version_text H
  | PartError message => error_text H signum message
  | PartStacktrace => stacktrace_text (platform H)
  end.

(** Reading rendered hexadecimal digits back. *)
Definition read_x (s : string) : option Z :=
  option_map (fun d => Z.of_N (N.of_hex_uint d))
    (HexadecimalString.NilZero.uint_of_string s).

(** The two guard calls and the calls of printf. *)
Definition is_emergency_test (e : Event) : bool :=
  match e with EvGamelogTestEmergency _ => true | _ => false end.

Definition is_newgrf_test (e : Event) : bool :=
  match e with EvSaveloadCrashWithMissingNewGRFs _ => true | _ => false end.

Definition is_printf (e : Event) : bool :=
  match e with EvPrintf _ => true | _ => false end.

(** [sig] is one of the signals of [_signals_to_handle]. *)
Definition is_handled (sig : Z) : bool :=
  existsb (Z.eqb sig) _signals_to_handle.

(** CrashLog::InitThread *)
Definition InitThread : Proc unit := pure tt.

(** The address of the frame the walk starts at. *)
Definition start_frame (P : Platform) : Z :=
  uintptr_t (arch P) (frame_address P).

(** A 32-bit process with one frame at 1032, whose return address 4096
    resolves to a symbol that starts at 0x90001000, above the address. *)
Definition wrapped_platform : Platform :=
  {| arch := I386;
     frame_address := 1032;
     memory := fun a => if a =? 1036 then 4096 else 0;
     dladdr := fun ip =>
       if ip =? 4096 then
         Some {| dli_fname := Some "/usr/lib/libbar.dylib";
                 dli_sname := Some "bar";
                 dli_saddr := 2415923200 |}
       else None;
     cxa_demangle := fun _ => None |}.

(** Reduce the field accesses and updates of a CrashLogOSX object. *)
Ltac run_fields :=
  cbn [filename_log filename_save filename_screenshot signum
       set_filename_log set_filename_save set_filename_screenshot
       fst snd negb andb kept_path].

(* ================================================================== *)
(** * Texts and arrays: auxiliary facts *)
(* ================================================================== *)

Lemma chars_app (s1 s2 : string) : chars (s1 +++ s2) = chars s1 ++ chars s2.
Proof.
  induction s1 as [|c s1 IH]; simpl; [reflexivity|].
  unfold chars in *; simpl; now rewrite IH.
Qed.

Lemma chars_length (s : string) : List.length (chars s) = String.length s.
Proof.
  induction s as [|c s IH]; simpl; [reflexivity|].
  unfold chars in *; simpl; now rewrite IH.
Qed.

Lemma strlen_app (s1 s2 : string) : strlen (s1 +++ s2) = strlen s1 + strlen s2.
Proof.
  unfold strlen. rewrite <- !chars_length, chars_app, length_app. lia.
Qed.

Lemma strlen_nonneg (s : string) : 0 <= strlen s.
Proof. unfold strlen; lia. Qed.

Lemma append_nil_r (s : string) : s +++ "" = s.
Proof. induction s as [|c s IH]; simpl; [reflexivity | now rewrite IH]. Qed.

Lemma append_assoc (a b c : string) : (a +++ b) +++ c = a +++ (b +++ c).
Proof. induction a as [|x a IH]; simpl; [reflexivity | now rewrite IH]. Qed.

Lemma store_bytes_spec (pos : Z) (bs : list ascii) (mem : CharArray) :
  0 <= pos ->
  pos + Z.of_nat (List.length bs) <= Z.of_nat (List.length mem) ->
  exists mem',
    store_bytes pos bs mem = Some (tt, mem') /\
    List.length mem' = List.length mem /\
    firstn (Z.to_nat pos) mem' = firstn (Z.to_nat pos) mem /\
    firstn (Z.to_nat pos + List.length bs) mem'
      = firstn (Z.to_nat pos) mem ++ bs.
Proof.
  intros Hpos Hfit. unfold store_bytes.
  replace (0 <=? pos) with true by (symmetry; apply Z.leb_le; lia).
  replace (pos + Z.of_nat (List.length bs) <=? Z.of_nat (List.length mem))
    with true by (symmetry; apply Z.leb_le; lia).
  simpl. eexists; split; [reflexivity|].
  assert (Hl : List.length (firstn (Z.to_nat pos) mem) = Z.to_nat pos)
    by (rewrite length_firstn; lia).
  repeat split.
  - rewrite !length_app, Hl, length_skipn. lia.
  - rewrite firstn_app, Hl, Nat.sub_diag. simpl.
    rewrite firstn_firstn, Nat.min_id. now rewrite app_nil_r.
  - rewrite app_assoc, firstn_app.
    rewrite length_app, Hl.
    replace (Z.to_nat pos + List.length bs - (Z.to_nat pos + List.length bs))%nat
      with 0%nat by lia.
    simpl. rewrite app_nil_r. apply firstn_all2.
    rewrite length_app, Hl. lia.
Qed.

(** The bounded append: what one call of seprintf does to an array that
    holds [t]. *)
Lemma seprintf_holds (cap : Z) (t s : string) (buffer : Z) (mem : CharArray) :
  Holds cap t buffer mem ->
  exists n mem',
    seprintf buffer (cap - 1) s mem = Some (n, mem') /\
    n = Z.min (cap - 1 - buffer) (strlen s) /\
    Holds cap (t +++ s) (buffer + n) mem' /\
    Terminated mem' (buffer + n).
Proof.
  intros [Hcap Hrange Hcur Hcont].
  pose proof (strlen_nonneg s) as Hs. pose proof (strlen_nonneg t) as Ht.
  unfold seprintf, vsnprintf, bind, ret.
  replace (cap - 1 - buffer <? 0) with false by (symmetry; apply Z.ltb_ge; lia).
  replace (cap - 1 - buffer + 1 <=? 0) with false
    by (symmetry; apply Z.leb_gt; lia).
  replace (cap - 1 - buffer + 1 - 1) with (cap - 1 - buffer) by lia.
  set (diff := cap - 1 - buffer).
  set (block := firstn (Z.to_nat diff) (chars s)).
  assert (Hblock : Z.of_nat (List.length block) = Z.min diff (strlen s)).
  { unfold block. rewrite length_firstn, chars_length. unfold strlen. lia. }
  destruct (store_bytes_spec buffer (block ++ [NUL]) mem) as (mem' & Hst & Hlen & _ & Hfull).
  - lia.
  - rewrite length_app. simpl. lia.
  - rewrite Hst. exists (Z.min diff (strlen s)), mem'. split; [reflexivity|].
    split; [reflexivity|].
    assert (Hpre : firstn (Z.to_nat (buffer + Z.min diff (strlen s))) mem'
                   = firstn (Z.to_nat buffer) mem ++ block).
    { rewrite length_app in Hfull. simpl in Hfull.
      assert (Hcutk : firstn (Z.to_nat buffer + List.length block)
                 (firstn (Z.to_nat buffer + (List.length block + 1)) mem')
               = firstn (Z.to_nat buffer + List.length block) mem').
      { rewrite firstn_firstn. f_equal. lia. }
      replace (Z.to_nat (buffer + Z.min diff (strlen s)))
        with (Z.to_nat buffer + List.length block)%nat by lia.
      rewrite <- Hcutk, Hfull.
      rewrite app_assoc, firstn_app.
      rewrite length_app, length_firstn.
      replace (Z.to_nat buffer + List.length block
               - (Init.Nat.min (Z.to_nat buffer) (List.length mem) + List.length block))%nat
        with 0%nat by lia.
      simpl. rewrite app_nil_r. apply firstn_all2.
      rewrite length_app, length_firstn. lia. }
    split; [constructor|].
    + lia.
    + lia.
    + rewrite strlen_app. lia.
    + rewrite Hpre, Hcont, chars_app, firstn_app. f_equal.
      unfold block. f_equal. rewrite chars_length.
      unfold strlen in *. lia.
    + unfold Terminated.
      assert (Hnth : nth_error
                 (firstn (Z.to_nat buffer + List.length (block ++ [NUL])) mem')
                 (Z.to_nat (buffer + Z.min diff (strlen s))) = Some NUL).
      { rewrite Hfull, app_assoc.
        assert (Hl : List.length (firstn (Z.to_nat buffer) mem ++ block)
                     = Z.to_nat (buffer + Z.min diff (strlen s))).
        { rewrite length_app, length_firstn. lia. }
        rewrite nth_error_app2 by lia. rewrite Hl, Nat.sub_diag. reflexivity. }
      rewrite nth_error_firstn in Hnth.
      destruct (Nat.ltb_spec (Z.to_nat (buffer + Z.min diff (strlen s)))
                  (Z.to_nat buffer + List.length (block ++ [NUL]))); [assumption | discriminate].
Qed.

(* ================================================================== *)
(** * The loop of LogStacktrace and the frames it visits *)
(* ================================================================== *)

Lemma frames_loop_collect (P : Platform) (fuel : nat) :
  forall i frame acc,
    frames_loop P collect fuel i frame acc = acc ++ Walk P fuel i frame.
Proof.
  unfold Walk.
  induction fuel as [|fuel IH]; intros i frame acc; simpl.
  - now rewrite app_nil_r.
  - destruct (negb (frame =? 0) && (i <? MAX_STACK_FRAMES)); [|now rewrite app_nil_r].
    destruct (frame_slot P frame (ip_slot (arch P)) =? 0); [now rewrite app_nil_r|].
    destruct ((frame_slot P frame 0 <=? frame)
              || negb (IS_ALIGNED (arch P) (frame_slot P frame 0))).
    + reflexivity.
    + rewrite IH. rewrite (IH _ _ (collect _ _ _ [])).
      unfold collect. simpl. now rewrite <- app_assoc.
Qed.

(** The walk, frame by frame. *)
Lemma Walk_unfold (P : Platform) (fuel : nat) (i frame : Z) :
  Walk P (S fuel) i frame =
    if negb (frame =? 0) && (i <? MAX_STACK_FRAMES) then
      let ip := frame_slot P frame (ip_slot (arch P)) in
      if ip =? 0 then []
      else
        (i, frame, ip) ::
        (let next := frame_slot P frame 0 in
         if (next <=? frame) || negb (IS_ALIGNED (arch P) next) then []
         else Walk P fuel (i + 1) next)
    else [].
Proof.
  unfold Walk at 1. simpl.
  destruct (negb (frame =? 0) && (i <? MAX_STACK_FRAMES)); [|reflexivity].
  destruct (frame_slot P frame (ip_slot (arch P)) =? 0); [reflexivity|].
  destruct ((frame_slot P frame 0 <=? frame)
            || negb (IS_ALIGNED (arch P) (frame_slot P frame 0))).
  - reflexivity.
  - now rewrite frames_loop_collect.
Qed.

(** Whatever the body does, the loop runs it on the frames of the walk, in
    order: the body has no say in which frames are visited. *)
Lemma frames_loop_fold {St : Type} (P : Platform)
    (visit : Z -> Z -> Z -> St -> St) (fuel : nat) :
  forall i frame s,
    frames_loop P visit fuel i frame s =
    fold_left (fun s (f : Frame) => let '(i, fr, ip) := f in visit i fr ip s)
      (Walk P fuel i frame) s.
Proof.
  induction fuel as [|fuel IH]; intros i frame s.
  - reflexivity.
  - rewrite Walk_unfold. simpl.
    destruct (negb (frame =? 0) && (i <? MAX_STACK_FRAMES)); [|reflexivity].
    destruct (frame_slot P frame (ip_slot (arch P)) =? 0); [reflexivity|].
    simpl.
    destruct ((frame_slot P frame 0 <=? frame)
              || negb (IS_ALIGNED (arch P) (frame_slot P frame 0))).
    + reflexivity.
    + apply IH.
Qed.

(** The loop leaves through its own tests: fuel beyond the frames that
    remain below MAX_STACK_FRAMES changes nothing. *)
Lemma Walk_fuel (P : Platform) (fuel : nat) :
  forall fuel' i frame,
    (Z.to_nat (MAX_STACK_FRAMES - i) <= fuel)%nat ->
    (Z.to_nat (MAX_STACK_FRAMES - i) <= fuel')%nat ->
    Walk P fuel i frame = Walk P fuel' i frame.
Proof.
  induction fuel as [|fuel IH]; intros fuel' i frame Hf Hf'.
  - destruct fuel' as [|fuel']; [reflexivity|].
    rewrite Walk_unfold.
    replace (i <? MAX_STACK_FRAMES) with false
      by (symmetry; apply Z.ltb_ge; lia).
    now rewrite andb_false_r.
  - destruct fuel' as [|fuel'].
    + rewrite Walk_unfold.
      replace (i <? MAX_STACK_FRAMES) with false
        by (symmetry; apply Z.ltb_ge; lia).
      now rewrite andb_false_r.
    + rewrite !Walk_unfold.
      destruct (Z.ltb_spec i MAX_STACK_FRAMES) as [Hi|Hi];
        [|now rewrite andb_false_r].
      destruct (negb (frame =? 0) && true); [|reflexivity].
      simpl.
      destruct (frame_slot P frame (ip_slot (arch P)) =? 0); [reflexivity|].
      f_equal.
      destruct ((frame_slot P frame 0 <=? frame)
                || negb (IS_ALIGNED (arch P) (frame_slot P frame 0)));
        [reflexivity|].
      apply IH; lia.
Qed.

Lemma frames_loop_fuel {St : Type} (P : Platform)
    (visit : Z -> Z -> Z -> St -> St) (fuel : nat) (s : St) :
  (Z.to_nat MAX_STACK_FRAMES <= fuel)%nat ->
  frames_loop P visit fuel 0 (uintptr_t (arch P) (frame_address P)) s =
  frames_loop P visit (Z.to_nat MAX_STACK_FRAMES) 0
    (uintptr_t (arch P) (frame_address P)) s.
Proof.
  intros Hf. rewrite !frames_loop_fold.
  rewrite (Walk_fuel P fuel (Z.to_nat MAX_STACK_FRAMES)); [reflexivity | |];
    rewrite Z.sub_0_r; lia.
Qed.

(* ================================================================== *)
(** * Every section is a bounded append *)
(* ================================================================== *)

Lemma Appends_seprintf (cap : Z) (s : string) :
  Appends cap true
    (fun buffer => n <- seprintf buffer (cap - 1) s ;; ret (buffer + n)) s.
Proof.
  intros t buffer mem Hh.
  destruct (seprintf_holds cap t s buffer mem Hh) as (n & mem' & E & _ & Hh' & T).
  unfold bind, ret. rewrite E. eauto.
Qed.

Lemma Appends_LogOSVersion (cap : Z) (H : Host) :
  Appends cap true (fun buffer => LogOSVersion H buffer (cap - 1))
    (os_version_text H).
Proof. apply Appends_seprintf. Qed.

Lemma Appends_LogError (cap : Z) (H : Host) (signum : Z) (message : string) :
  Appends cap true (fun buffer => LogError H signum buffer (cap - 1) message)
    (error_text H signum message).
Proof. apply Appends_seprintf. Qed.

Lemma Appends_log_frame (cap : Z) (P : Platform) (i frame ip : Z) :
  Appends cap true (log_frame P (cap - 1) i ip) (frame_text P (i, frame, ip)).
Proof.
  intros t buffer mem Hh. unfold log_frame, frame_text, bind, ret.
  destruct (seprintf_holds cap _ (index_text i) _ _ Hh)
    as (n1 & m1 & E1 & _ & H1 & _). rewrite E1.
  destruct (seprintf_holds cap _ (image_text P ip) _ _ H1)
    as (n2 & m2 & E2 & _ & H2 & _). rewrite E2.
  destruct (symbol_info (dladdr P ip)) as [[sname saddr]|].
  - destruct (seprintf_holds cap _ (symbol_text P ip sname saddr) _ _ H2)
      as (n3 & m3 & E3 & _ & H3 & _). rewrite E3.
    destruct (seprintf_holds cap _ nl _ _ H3) as (n4 & m4 & E4 & _ & H4 & T4).
    rewrite E4. do 2 eexists. split; [reflexivity|]. split; [|auto].
    now rewrite !append_assoc in H4.
  - destruct (seprintf_holds cap _ nl _ _ H2) as (n4 & m4 & E4 & _ & H4 & T4).
    rewrite E4. do 2 eexists. split; [reflexivity|]. split; [|auto].
    now rewrite !append_assoc in H4.
Qed.

Lemma concat_text_app (l1 l2 : list string) :
  concat_text (l1 ++ l2) = concat_text l1 +++ concat_text l2.
Proof.
  induction l1 as [|s l1 IH]; simpl; [reflexivity|].
  now rewrite IH, append_assoc.
Qed.

(** The frames of a walk, logged one after the other. *)
Lemma log_frames_holds (cap : Z) (P : Platform) (fs : list Frame) :
  forall (run : M Z) mem0 t b1 m1,
    run mem0 = Some (b1, m1) ->
    Holds cap t b1 m1 ->
    Terminated m1 b1 ->
    exists b2 m2,
      fold_left
        (fun (run : M Z) (f : Frame) =>
           let '(i, fr, ip) := f in
           buffer <- run ;; log_frame P (cap - 1) i ip buffer)
        fs run mem0 = Some (b2, m2) /\
      Holds cap (t +++ concat_text (map (frame_text P) fs)) b2 m2 /\
      Terminated m2 b2.
Proof.
  induction fs as [|[[i fr] ip] fs IH]; intros run mem0 t b1 m1 Hrun Hh T.
  - simpl. rewrite append_nil_r. eauto.
  - simpl.
    destruct (Appends_log_frame cap P i fr ip t b1 m1 Hh)
      as (b' & m' & E & Hh' & T').
    destruct (IH (buffer <- run ;; log_frame P (cap - 1) i ip buffer)
                 mem0 (t +++ frame_text P (i, fr, ip)) b' m')
      as (b2 & m2 & E2 & H2 & T2).
    + unfold bind. now rewrite Hrun.
    + exact Hh'.
    + apply T'. now left.
    + exists b2, m2. split; [exact E2|]. split; [|exact T2].
      now rewrite append_assoc in H2.
Qed.

Lemma Appends_LogStacktrace (cap : Z) (P : Platform) :
  Appends cap true (fun buffer => LogStacktrace P buffer (cap - 1))
    (stacktrace_text P).
Proof.
  intros t buffer mem Hh. unfold LogStacktrace, stacktrace_text.
  unfold bind at 1.
  destruct (seprintf_holds cap _ stacktrace_header _ _ Hh)
    as (n1 & m1 & E1 & _ & H1 & T1). rewrite E1.
  unfold bind at 1. rewrite frames_loop_fold.
  destruct (log_frames_holds cap P (WalkFrom P) (ret (buffer + n1)) m1 _
              (buffer + n1) m1 eq_refl H1 T1) as (b2 & m2 & E2 & H2 & T2).
  unfold WalkFrom in E2. rewrite E2.
  destruct (seprintf_holds cap _ nl _ _ H2) as (n3 & m3 & E3 & _ & H3 & T3).
  unfold bind, ret. rewrite E3. do 2 eexists. split; [reflexivity|].
  split; [|auto].
  now rewrite !append_assoc in H3.
Qed.

Lemma Appends_sections (cap : Z) (blocks : list string) :
  Appends cap false (append_sections (cap - 1) blocks) (concat_text blocks).
Proof.
  induction blocks as [|block blocks IH]; intros t buffer mem Hh; simpl.
  - rewrite append_nil_r. unfold ret. do 2 eexists.
    split; [reflexivity|]. split; [assumption|].
    intros [Hw|T]; [discriminate | assumption].
  - destruct (seprintf_holds cap _ block _ _ Hh) as (n & m & E & _ & H1 & T1).
    unfold bind. rewrite E.
    destruct (IH _ _ _ H1) as (b2 & m2 & E2 & H2 & T2).
    exists b2, m2. split; [exact E2|]. split.
    + now rewrite append_assoc in H2.
    + intros _. apply T2. now right.
Qed.

Lemma Appends_FillCrashLog (cap : Z) (H : Host) (signum : Z) :
  Appends cap true (fun buffer => FillCrashLog H signum buffer (cap - 1))
    (report_text H signum).
Proof.
  intros t buffer mem Hh. unfold FillCrashLog, report_text, bind.
  destruct (Appends_LogOSVersion cap H _ _ _ Hh) as (b1 & m1 & E1 & H1 & T1).
  rewrite E1.
  destruct (Appends_LogError cap H signum (crash_message H) _ _ _ H1)
    as (b2 & m2 & E2 & H2 & T2). rewrite E2.
  destruct (Appends_LogStacktrace cap (platform H) _ _ _ H2)
    as (b3 & m3 & E3 & H3 & T3). rewrite E3.
  destruct (Appends_sections cap (other_sections H) _ _ _ H3)
    as (b4 & m4 & E4 & H4 & T4). rewrite E4.
  do 2 eexists. split; [reflexivity|]. split.
  - now rewrite !append_assoc in H4.
  - intros _. apply T4. right. apply T3. now left.
Qed.

(** A fresh array holds the empty text. *)
Lemma local_array_length (junk : nat -> ascii) (n : Z) :
  0 <= n -> Z.of_nat (List.length (local_array junk n)) = n.
Proof.
  intros Hn. unfold local_array. rewrite length_map, length_seq. lia.
Qed.

Lemma Holds_start (mem : CharArray) :
  (0 < List.length mem)%nat ->
  Holds (Z.of_nat (List.length mem)) "" 0 mem.
Proof.
  intros Hlen. constructor.
  - reflexivity.
  - lia.
  - unfold strlen. simpl. lia.
  - simpl. now rewrite firstn_nil.
Qed.

Lemma until_nul_app (l r : list ascii) :
  ~ In NUL l -> until_nul (l ++ NUL :: r) = string_of_list_ascii l.
Proof.
  induction l as [|c l IH]; intros Hn; simpl.
  - reflexivity.
  - destruct (Ascii.eqb_spec c NUL) as [->|Hc].
    + exfalso. apply Hn. now left.
    + rewrite IH; [reflexivity|]. intros Hin. apply Hn. now right.
Qed.

Lemma In_firstn {A : Type} (x : A) (n : nat) (l : list A) :
  In x (firstn n l) -> In x l.
Proof.
  revert l. induction n as [|n IH]; intros [|a l]; simpl; try tauto.
  intros [->|Hin]; [now left | right; now apply IH].
Qed.

(** The C string of an array that holds [t], when [t] is one. *)
Lemma c_str_holds (cap : Z) (t : string) (buffer : Z) (mem : CharArray) :
  Holds cap t buffer mem -> Terminated mem buffer -> no_nul t ->
  c_str mem 0 = cut (cap - 1) t.
Proof.
  intros [Hcap Hrange Hcur Hcont] T Hn.
  unfold c_str, cut. simpl.
  rewrite <- (firstn_skipn (Z.to_nat buffer) mem) at 1.
  unfold Terminated in T.
  assert (Hskip : exists r, skipn (Z.to_nat buffer) mem = NUL :: r).
  { rewrite <- (firstn_skipn (Z.to_nat buffer) mem) in T.
    rewrite nth_error_app2 in T by (rewrite length_firstn; lia).
    rewrite length_firstn in T.
    replace (Z.to_nat buffer - Init.Nat.min (Z.to_nat buffer) (List.length mem))%nat
      with 0%nat in T by lia.
    destruct (skipn (Z.to_nat buffer) mem) as [|c r]; [discriminate|].
    simpl in T. injection T as ->. now exists r. }
  destruct Hskip as (r & ->).
  rewrite Hcont. apply until_nul_app.
  intros Hin. apply Hn. now apply In_firstn in Hin.
Qed.

Lemma Appends_BoundedWrite (mem : CharArray) (c : Z -> M Z) (text : string) :
  (0 < List.length mem)%nat ->
  Appends (Z.of_nat (List.length mem)) true c text ->
  BoundedWrite mem (c 0) text.
Proof.
  intros Hlen Hc.
  destruct (Hc "" 0 mem (Holds_start mem Hlen)) as (b & m & E & Hh & T).
  simpl in Hh. pose proof Hh as [Hcap Hrange Hcur Hcont].
  exists b, m. split; [exact E|].
  split; [lia|]. split; [exact Hcur|]. split; [exact Hcont|].
  split; [apply T; now left|]. split; [lia|].
  intros Hn. apply (c_str_holds _ text b); auto.
Qed.

(* ================================================================== *)
(** * The runs of MakeCrashLog, DisplayCrashDialog and HandleCrash *)
(* ================================================================== *)

Local Opaque local_array.

Lemma local_array_nonempty (junk : nat -> ascii) (n : Z) :
  0 < n -> (0 < List.length (local_array junk n))%nat.
Proof. intros Hn. pose proof (local_array_length junk n). lia. Qed.

Lemma FillCrashLog_bounded (H : Host) (signum : Z) (mem : CharArray) :
  (0 < List.length mem)%nat ->
  BoundedWrite mem (FillCrashLog H signum 0 (lastof mem)) (report_text H signum).
Proof.
  intros Hlen.
  apply (Appends_BoundedWrite mem
           (fun buffer => FillCrashLog H signum buffer (lastof mem))); [exact Hlen|].
  apply Appends_FillCrashLog.
Qed.

Lemma MakeCrashLog_run (E : Env) (this : CrashLogOSX) (tr : list Event) :
  MakeCrashLog E this tr =
  Returned
    (fst (log_written E this) && fst (save_written E this)
       && fst (shot_written E this), made_log E this)
    (tr ++ made_events E this).
Proof.
  unfold made_events, made_log, log_written, save_written, shot_written,
    report_of.
  unfold MakeCrashLog, pbind, printf, emit, on_array, pure.
  destruct (FillCrashLog_bounded (host E) (signum this)
              (local_array (stack_junk E) 65536))
    as (b & m & Efill & _); [apply local_array_nonempty; lia|].
  rewrite Efill. cbn [snd fst].
  unfold WriteCrashLog, WriteSavegame, WriteScreenshot, pbind, emit, pure.
  cbn [filename_log filename_save filename_screenshot signum
       set_filename_log set_filename_save set_filename_screenshot].
  destruct (env_WriteCrashLog E (c_str m 0) (filename_log this)) as [ok1 l1].
  destruct ok1; run_fields;
    (destruct (env_WriteSavegame E (filename_save this)) as [ok2 l2];
     destruct ok2; run_fields;
     (destruct (env_WriteScreenshot E (filename_screenshot this)) as [ok3 l3];
      destruct ok3; run_fields;
      repeat rewrite <- app_assoc; reflexivity)).
Qed.

Lemma DisplayCrashDialog_run (E : Env) (this : CrashLogOSX) (tr : list Event) :
  DisplayCrashDialog E this tr =
  Returned tt (tr ++ [EvShowMacDialog crash_title (dialog_message E this) "Quit"]).
Proof.
  unfold DisplayCrashDialog, dialog_message, pbind, on_array, ShowMacDialog, emit.
  set (message := local_array (stack_junk E) 1024).
  assert (Hlen : (0 < List.length message)%nat)
    by (apply local_array_nonempty; lia).
  destruct (seprintf_holds _ _ (dialog_text this) _ _ (Holds_start message Hlen))
    as (n & m & Es & _).
  unfold lastof. rewrite Es. reflexivity.
Qed.

Lemma signal_all_run (sigs : list Z) (d : Disposition) (tr : list Event) :
  signal_all sigs d tr = Returned tt (tr ++ map (fun sig => EvSignal sig d) sigs).
Proof.
  revert tr. induction sigs as [|sig sigs IH]; intros tr; simpl.
  - unfold pure. now rewrite app_nil_r.
  - unfold pbind, signal, emit. rewrite IH. now rewrite <- app_assoc.
Qed.

(** The three ways HandleCrash runs. *)
Lemma HandleCrash_emergency (E : Env) (signum : Z) (tr : list Event) :
  env_GamelogTestEmergency E = true ->
  HandleCrash E signum tr =
  Aborted (tr ++ restore_events
              ++ [EvGamelogTestEmergency true; emergency_notice; EvAbort]).
Proof.
  intros He. unfold HandleCrash, pbind. rewrite signal_all_run.
  unfold GamelogTestEmergency, pbind, emit, pure. rewrite He.
  unfold ShowMacDialog, abort, emit, restore_events, emergency_notice, crash_title.
  repeat rewrite <- app_assoc. reflexivity.
Qed.

Lemma HandleCrash_missing_newgrfs (E : Env) (signum : Z) (tr : list Event) :
  env_GamelogTestEmergency E = false ->
  env_SaveloadCrashWithMissingNewGRFs E = true ->
  HandleCrash E signum tr =
  Aborted (tr ++ restore_events
              ++ [EvGamelogTestEmergency false;
                  EvSaveloadCrashWithMissingNewGRFs true;
                  newgrf_notice; EvAbort]).
Proof.
  intros He Hm. unfold HandleCrash, pbind. rewrite signal_all_run.
  unfold GamelogTestEmergency, SaveloadCrashWithMissingNewGRFs, pbind, emit, pure.
  rewrite He, Hm.
  unfold ShowMacDialog, abort, emit, restore_events, newgrf_notice, crash_title.
  repeat rewrite <- app_assoc. reflexivity.
Qed.

Lemma HandleCrash_full (E : Env) (signum : Z) (tr : list Event) :
  env_GamelogTestEmergency E = false ->
  env_SaveloadCrashWithMissingNewGRFs E = false ->
  HandleCrash E signum tr =
  Aborted (tr ++ restore_events
              ++ [EvGamelogTestEmergency false;
                  EvSaveloadCrashWithMissingNewGRFs false]
              ++ made_events E (CrashLogOSX_new signum)
              ++ dialog_events E (made_log E (CrashLogOSX_new signum))
              ++ [EvAfterCrashLogCleanup; EvAbort]).
Proof.
  intros He Hm. unfold HandleCrash, pbind. rewrite signal_all_run.
  unfold GamelogTestEmergency, SaveloadCrashWithMissingNewGRFs, pbind, emit, pure.
  rewrite He, Hm. rewrite MakeCrashLog_run. cbn [snd].
  unfold dialog_events, shows_dialog, AfterCrashLogCleanup, abort, emit, pure,
    restore_events.
  destruct (env_VideoDriver E) as [[|]|];
    try rewrite DisplayCrashDialog_run;
    repeat rewrite <- app_assoc; reflexivity.
Qed.

(* ================================================================== *)
(** * Counting calls in a trace *)
(* ================================================================== *)

Lemma count_app (p : Event -> bool) (a b : list Event) :
  count p (a ++ b) = (count p a + count p b)%nat.
Proof. unfold count. now rewrite filter_app, length_app. Qed.

Lemma dialog_events_signal (E : Env) (log : CrashLogOSX) :
  count is_signal_call (dialog_events E log) = 0%nat.
Proof. unfold dialog_events. now destruct (shows_dialog E). Qed.

Lemma dialog_events_cleanup (E : Env) (log : CrashLogOSX) :
  count is_cleanup (dialog_events E log) = 0%nat.
Proof. unfold dialog_events. now destruct (shows_dialog E). Qed.

Lemma dialog_events_artifact (E : Env) (log : CrashLogOSX) :
  count is_artifact_call (dialog_events E log) = 0%nat.
Proof. unfold dialog_events. now destruct (shows_dialog E). Qed.

Lemma dialog_events_abort (E : Env) (log : CrashLogOSX) :
  count is_abort (dialog_events E log) = 0%nat.
Proof. unfold dialog_events. now destruct (shows_dialog E). Qed.

(** Every run opens with the six restoring calls and the first guard. *)
Lemma HandleCrash_opening (E : Env) (signum : Z) :
  exists rest,
    trace_of (HandleCrash E signum []) =
      restore_events
      ++ EvGamelogTestEmergency (env_GamelogTestEmergency E) :: rest /\
    count is_signal_call rest = 0%nat.
Proof.
  destruct (env_GamelogTestEmergency E) eqn:He.
  - rewrite HandleCrash_emergency by exact He. simpl.
    eexists. split; reflexivity.
  - destruct (env_SaveloadCrashWithMissingNewGRFs E) eqn:Hm.
    + rewrite HandleCrash_missing_newgrfs by assumption. simpl.
      eexists. split; reflexivity.
    + rewrite HandleCrash_full by assumption. cbn [trace_of app].
      eexists. split; [reflexivity|].
      cbn [app]. change (EvSaveloadCrashWithMissingNewGRFs false :: ?l)
        with ([EvSaveloadCrashWithMissingNewGRFs false] ++ l).
      rewrite !count_app, dialog_events_signal. reflexivity.
Qed.

(* ================================================================== *)
(** * The signal table along a trace *)
(* ================================================================== *)

Lemma dispositions_app (a b : list Event) :
  forall tbl, dispositions tbl (a ++ b) = dispositions (dispositions tbl a) b.
Proof.
  induction a as [|e a IH]; intros tbl; simpl; [reflexivity|].
  destruct e; apply IH.
Qed.

Lemma dispositions_no_signal (l : list Event) :
  count is_signal_call l = 0%nat ->
  forall tbl, dispositions tbl l = tbl.
Proof.
  unfold count. induction l as [|e l IH]; intros Hc tbl; simpl; [reflexivity|].
  destruct e; simpl in Hc; try discriminate; now apply IH.
Qed.

Lemma count_prefix_zero (p : Event -> bool) (a b : list Event) :
  count p (a ++ b) = 0%nat -> count p a = 0%nat.
Proof. rewrite count_app. lia. Qed.

Lemma dispositions_restored (tbl : Z -> Disposition) (sig : Z) :
  In sig _signals_to_handle ->
  dispositions tbl restore_events sig = SIG_DFL.
Proof.
  unfold _signals_to_handle. simpl.
  intros [<-|[<-|[<-|[<-|[<-|[<-|[]]]]]]]; reflexivity.
Qed.

(** A step that is not a restoring call lies behind every restoring call
    of a run that opens with them. *)
Lemma split_behind (front rest pre post : list Event) (e : Event) :
  forallb is_restore front = true ->
  is_restore e = false ->
  front ++ rest = pre ++ e :: post ->
  exists pre', pre = front ++ pre' /\ rest = pre' ++ e :: post.
Proof.
  revert pre. induction front as [|r front IH]; intros pre Hall He Heq.
  - exists pre. now split.
  - simpl in Hall. apply andb_prop in Hall as [Hr Hall].
    destruct pre as [|x pre]; simpl in Heq.
    + injection Heq as -> _. congruence.
    + injection Heq as -> Heq.
      destruct (IH pre Hall He Heq) as (pre' & -> & ->).
      exists pre'. now split.
Qed.

(* ================================================================== *)
(** * The claims about HandleCrash *)
(* ================================================================== *)

(** C1.  HandleCrash first binds every registered signal to its default
    disposition: the six restoring calls open every run, the first call
    behind them is the first guard, and no later call touches a signal
    again.  So at whatever other step the run stands, all the restoring
    calls are behind it and the delivery of a registered signal ends the
    process, whatever the signal table was on entry, whereas under the
    table InitialiseCrashLog sets up it would enter HandleCrash. *)
Theorem restore_precedes_every_other_step (E : Env) (signum : Z) :
  (exists rest,
     trace_of (HandleCrash E signum []) =
       [EvSignal SIGSEGV SIG_DFL; EvSignal SIGABRT SIG_DFL;
        EvSignal SIGFPE SIG_DFL; EvSignal SIGBUS SIG_DFL;
        EvSignal SIGILL SIG_DFL; EvSignal SIGSYS SIG_DFL]
       ++ EvGamelogTestEmergency (env_GamelogTestEmergency E) :: rest /\
     count is_signal_call rest = 0%nat) /\
  (forall pre e post tbl sig,
     trace_of (HandleCrash E signum []) = pre ++ e :: post ->
     is_restore e = false ->
     In sig _signals_to_handle ->
     (exists pre', pre = restore_events ++ pre') /\
     dispositions tbl pre sig = SIG_DFL /\
     deliver (dispositions tbl pre) sig = Terminates) /\
  (forall tbl sig,
     In sig _signals_to_handle ->
     deliver (dispositions tbl (trace_of (InitialiseCrashLog []))) sig
       = EntersHandleCrash).
Proof.
  destruct (HandleCrash_opening E signum) as (rest & Htr & Hrest).
  split; [exists rest; split; [exact Htr | exact Hrest]|].
  split.
  - intros pre e post tbl sig Hsplit He Hin.
    rewrite Htr in Hsplit.
    destruct (split_behind restore_events _ pre post e eq_refl He Hsplit)
      as (pre' & -> & Hpre').
    assert (Hdisp : dispositions tbl (restore_events ++ pre') sig = SIG_DFL).
    { rewrite dispositions_app.
      rewrite dispositions_no_signal; [now apply dispositions_restored|].
      destruct pre' as [|x pre']; [reflexivity|].
      simpl in Hpre'. injection Hpre' as Hx Hpre'. subst x.
      change (EvGamelogTestEmergency (env_GamelogTestEmergency E) :: pre')
        with ([EvGamelogTestEmergency (env_GamelogTestEmergency E)] ++ pre').
      rewrite count_app. simpl.
      apply (count_prefix_zero _ pre' (e :: post)). now rewrite <- Hpre'. }
    split; [now exists pre'|]. split; [exact Hdisp|].
    unfold deliver. now rewrite Hdisp.
  - intros tbl sig Hin. unfold InitialiseCrashLog.
    rewrite signal_all_run. simpl trace_of.
    unfold deliver, _signals_to_handle in *. simpl in Hin |- *.
    destruct Hin as [<-|[<-|[<-|[<-|[<-|[<-|[]]]]]]]; reflexivity.
Qed.

(** At SIGSEGV in the sample process that InitialiseCrashLog has armed:
    once the run stands at the first guard, SIGSEGV is at its default
    disposition. *)
Lemma restore_precedes_every_other_step_witness :
  dispositions (fun _ => SIG_HandleCrash) restore_events SIGSEGV = SIG_DFL.
Proof.
  destruct (restore_precedes_every_other_step
              (sample_env true false None) SIGSEGV) as (_ & Hstep & _).
  refine (proj1 (proj2 (Hstep restore_events
            (EvGamelogTestEmergency true) [emergency_notice; EvAbort]
            (fun _ => SIG_HandleCrash) SIGSEGV _ _ _))).
  - reflexivity.
  - reflexivity.
  - simpl. now left.
Defined.

(** C5.  When GamelogTestEmergency or SaveloadCrashWithMissingNewGRFs
    answers true, HandleCrash calls neither the report builder nor any of
    the three artifact writers, shows exactly one dialog, the notice of
    the guard that fired, and the call right behind that notice is
    abort(). *)
Theorem guard_skips_report
    (E : Env) (signum : Z)
    (Hskip : env_GamelogTestEmergency E = true
             \/ env_SaveloadCrashWithMissingNewGRFs E = true) :
  exists pre notice,
    HandleCrash E signum [] = Aborted (pre ++ [notice; EvAbort]) /\
    notice = (if env_GamelogTestEmergency E then emergency_notice
              else newgrf_notice) /\
    count is_report_call (pre ++ [notice; EvAbort]) = 0%nat /\
    count is_artifact_call (pre ++ [notice; EvAbort]) = 0%nat /\
    count is_dialog (pre ++ [notice; EvAbort]) = 1%nat /\
    count is_abort pre = 0%nat.
Proof.
  destruct (env_GamelogTestEmergency E) eqn:He.
  - exists (restore_events ++ [EvGamelogTestEmergency true]), emergency_notice.
    rewrite HandleCrash_emergency by exact He.
    repeat split; reflexivity.
  - destruct Hskip as [Hskip|Hm]; [discriminate|].
    exists (restore_events ++ [EvGamelogTestEmergency false;
                               EvSaveloadCrashWithMissingNewGRFs true]),
      newgrf_notice.
    rewrite HandleCrash_missing_newgrfs by assumption.
    repeat split; reflexivity.
Qed.

Lemma guard_skips_report_witness :
  exists pre notice,
    HandleCrash (sample_env false true None) SIGBUS []
      = Aborted (pre ++ [notice; EvAbort]) /\
    notice = newgrf_notice /\
    count is_report_call (pre ++ [notice; EvAbort]) = 0%nat /\
    count is_artifact_call (pre ++ [notice; EvAbort]) = 0%nat /\
    count is_dialog (pre ++ [notice; EvAbort]) = 1%nat /\
    count is_abort pre = 0%nat.
Proof.
  apply (guard_skips_report (sample_env false true None) SIGBUS).
  right. reflexivity.
Defined.

(** C10.  On the full-report path AfterCrashLogCleanup is called exactly
    once: it is the last call before abort(), all three artifact writes
    lie before it and nothing is called behind abort().  When one of the
    two guards fires the process is ended without the hook being called. *)
Theorem cleanup_hook_once (E : Env) (signum : Z) :
  (env_GamelogTestEmergency E = false ->
   env_SaveloadCrashWithMissingNewGRFs E = false ->
   exists pre,
     HandleCrash E signum [] = Aborted (pre ++ [EvAfterCrashLogCleanup; EvAbort]) /\
     count is_cleanup (pre ++ [EvAfterCrashLogCleanup; EvAbort]) = 1%nat /\
     count is_cleanup pre = 0%nat /\
     count is_artifact_call pre = 3%nat /\
     count is_abort pre = 0%nat) /\
  (env_GamelogTestEmergency E = true
   \/ env_SaveloadCrashWithMissingNewGRFs E = true ->
   exists tr,
     HandleCrash E signum [] = Aborted tr /\
     count is_cleanup tr = 0%nat).
Proof.
  split.
  - intros He Hm.
    exists (restore_events
            ++ [EvGamelogTestEmergency false;
                EvSaveloadCrashWithMissingNewGRFs false]
            ++ made_events E (CrashLogOSX_new signum)
            ++ dialog_events E (made_log E (CrashLogOSX_new signum))).
    rewrite HandleCrash_full by assumption.
    split; [now rewrite <- !app_assoc|].
    rewrite !count_app, dialog_events_cleanup, dialog_events_artifact,
      dialog_events_abort.
    repeat split; reflexivity.
  - intros Hskip.
    destruct (env_GamelogTestEmergency E) eqn:He.
    + rewrite HandleCrash_emergency by exact He.
      eexists. split; reflexivity.
    + destruct Hskip as [Hskip|Hm]; [discriminate|].
      rewrite HandleCrash_missing_newgrfs by assumption.
      eexists. split; reflexivity.
Qed.

Lemma cleanup_hook_once_witness :
  (exists pre,
     HandleCrash (sample_env false false (Some true)) SIGSEGV []
       = Aborted (pre ++ [EvAfterCrashLogCleanup; EvAbort]) /\
     count is_cleanup (pre ++ [EvAfterCrashLogCleanup; EvAbort]) = 1%nat /\
     count is_cleanup pre = 0%nat /\
     count is_artifact_call pre = 3%nat /\
     count is_abort pre = 0%nat) /\
  (exists tr,
     HandleCrash (sample_env true false (Some true)) SIGSEGV [] = Aborted tr /\
     count is_cleanup tr = 0%nat).
Proof.
  split.
  - apply (cleanup_hook_once (sample_env false false (Some true)) SIGSEGV);
      reflexivity.
  - apply (cleanup_hook_once (sample_env true false (Some true)) SIGSEGV).
    left. reflexivity.
Defined.

(* ================================================================== *)
(** * The claims about MakeCrashLog and DisplayCrashDialog *)
(* ================================================================== *)

Lemma is_empty_false (s : string) : s <> EmptyString -> is_empty s = false.
Proof. destruct s; [congruence | reflexivity]. Qed.

Lemma kept_path_failed (r : bool * string) :
  fst r = false -> kept_path r = EmptyString.
Proof. unfold kept_path. now intros ->. Qed.

Lemma kept_path_filled (r : bool * string) :
  kept_path r <> EmptyString -> fst r = true.
Proof. unfold kept_path. destruct (fst r); [reflexivity | congruence]. Qed.

(** C4.  MakeCrashLog calls the three writers, crash log, savegame and
    screenshot, in this order and whatever the earlier ones answered; it
    returns true exactly when all three succeeded; a failed write leaves
    an empty path; and with writers that fill the path when they succeed,
    exactly one failure leaves exactly one empty path, two paths that are
    not empty, and the result false. *)
Theorem MakeCrashLog_attempts_all (E : Env) (this : CrashLogOSX)
    (tr : list Event) :
  exists ret log' calls,
    MakeCrashLog E this tr = Returned (ret, log') (tr ++ calls) /\
    filter is_artifact_call calls =
      [EvWriteCrashLog (report_of E (signum this)) (fst (log_written E this));
       EvWriteSavegame (fst (save_written E this));
       EvWriteScreenshot (fst (shot_written E this))] /\
    (ret = true <-> successes E this = [true; true; true]) /\
    (fst (log_written E this) = false -> filename_log log' = EmptyString) /\
    (fst (save_written E this) = false -> filename_save log' = EmptyString) /\
    (fst (shot_written E this) = false ->
     filename_screenshot log' = EmptyString) /\
    (WritersFillPath E ->
     failures E this = 1%nat ->
     empty_paths log' = 1%nat /\ filled_paths log' = 2%nat /\ ret = false).
Proof.
  exists (fst (log_written E this) && fst (save_written E this)
          && fst (shot_written E this)), (made_log E this), (made_events E this).
  split; [apply MakeCrashLog_run|].
  split; [reflexivity|].
  split.
  { unfold successes.
    destruct (fst (log_written E this)), (fst (save_written E this)),
      (fst (shot_written E this)); simpl; split; congruence. }
  split; [apply kept_path_failed|].
  split; [apply kept_path_failed|].
  split; [apply kept_path_failed|].
  intros (Hlog & Hsave & Hshot) Hone.
  unfold failures, successes in Hone.
  unfold empty_paths, filled_paths, paths, made_log, kept_path.
  cbn [filename_log filename_save filename_screenshot].
  specialize (Hlog (report_of E (signum this)) (filename_log this)).
  specialize (Hsave (filename_save this)).
  specialize (Hshot (filename_screenshot this)).
  fold (log_written E this) in Hlog.
  fold (save_written E this) in Hsave.
  fold (shot_written E this) in Hshot.
  destruct (fst (log_written E this)), (fst (save_written E this)),
    (fst (shot_written E this)); simpl in Hone; try discriminate;
    cbn [filter is_empty negb andb];
    repeat match goal with
           | H : true = true -> _ |- _ => specialize (H eq_refl)
           | H : as_c_string ?x <> EmptyString |- _ =>
             rewrite (is_empty_false _ H); clear H
           end;
    repeat split; reflexivity.
Qed.

Lemma sample_writers_fill_path (emergency missing : bool) (video : option bool) :
  WritersFillPath (sample_env emergency missing video).
Proof. repeat split; intros; simpl; discriminate. Qed.

Lemma MakeCrashLog_attempts_all_witness :
  exists ret log' calls,
    MakeCrashLog (sample_env false false None) (CrashLogOSX_new SIGSEGV) []
      = Returned (ret, log') ([] ++ calls) /\
    empty_paths log' = 1%nat /\ filled_paths log' = 2%nat /\ ret = false.
Proof.
  destruct (MakeCrashLog_attempts_all (sample_env false false None)
              (CrashLogOSX_new SIGSEGV) [])
    as (ret & log' & calls & Hrun & _ & _ & _ & _ & _ & Hone).
  exists ret, log', calls. split; [exact Hrun|].
  apply Hone.
  - apply sample_writers_fill_path.
  - reflexivity.
Defined.

Lemma no_nul_app (a b : string) : no_nul a -> no_nul b -> no_nul (a +++ b).
Proof.
  unfold no_nul. rewrite chars_app. intros Ha Hb Hin.
  apply in_app_or in Hin. tauto.
Qed.

Lemma no_nul_literal (s : string) : has_nul s = false -> no_nul s.
Proof.
  unfold has_nul, no_nul. intros Hex Hin.
  assert (Ht : existsb (Ascii.eqb NUL) (chars s) = true).
  { apply existsb_exists. exists NUL. split; [exact Hin | apply Ascii.eqb_refl]. }
  congruence.
Qed.

Lemma until_nul_chars (l : list ascii) :
  ~ In NUL (chars (until_nul l)).
Proof.
  induction l as [|c l IH]; simpl; [tauto|].
  destruct (Ascii.eqb_spec c NUL) as [->|Hc]; simpl; [tauto|].
  unfold chars in *. simpl. intros [Heq|Hin]; [congruence | tauto].
Qed.

Lemma no_nul_kept_path (r : bool * string) : no_nul (kept_path r).
Proof.
  unfold kept_path, as_c_string, no_nul.
  destruct (fst r); [apply until_nul_chars | simpl; tauto].
Qed.

Lemma no_nul_dialog_text (E : Env) (this : CrashLogOSX) :
  no_nul (dialog_text (made_log E this)).
Proof.
  unfold dialog_text, made_log.
  cbn [filename_log filename_save filename_screenshot].
  repeat first [ apply no_nul_kept_path
               | apply no_nul_app
               | apply no_nul_literal; reflexivity ].
Qed.

Lemma cut_all (n : Z) (s : string) : strlen s <= n -> cut n s = s.
Proof.
  intros Hn. unfold cut. rewrite firstn_all2.
  - apply string_of_list_ascii_of_string.
  - rewrite chars_length. unfold strlen in Hn. lia.
Qed.

(** The message of the dialog is its text, cut to the 1023 characters
    the array has room for. *)
Lemma dialog_message_cut (E : Env) (this : CrashLogOSX) :
  no_nul (dialog_text this) ->
  dialog_message E this = cut 1023 (dialog_text this).
Proof.
  intros Hn. unfold dialog_message.
  set (message := local_array (stack_junk E) 1024).
  assert (Hlen : Z.of_nat (List.length message) = 1024)
    by (apply local_array_length; lia).
  assert (Hpos : (0 < List.length message)%nat) by lia.
  destruct (seprintf_holds _ _ (dialog_text this) _ _ (Holds_start message Hpos))
    as (n & m & Es & _ & Hh & T).
  unfold lastof. rewrite Es. simpl in Hh.
  rewrite (c_str_holds _ _ _ _ Hh T Hn). now rewrite Hlen.
Qed.

(** C9.  The three path buffers are empty in a new object.  After
    MakeCrashLog a buffer whose write failed is empty, a buffer that is
    not empty belongs to a write that succeeded, and with writers that
    fill the path when they succeed a buffer is non-empty exactly when its
    write succeeded.  The dialog, whose text has room in its array,
    shows the three buffers on three lines behind its fixed text: the
    paths of the artifacts that were written, and nothing for the others. *)
Theorem path_buffers_track_success (E : Env) (this : CrashLogOSX)
    (signum0 : Z) (tr : list Event) :
  paths (CrashLogOSX_new signum0) = [EmptyString; EmptyString; EmptyString] /\
  exists ret log' tr',
    MakeCrashLog E this tr = Returned (ret, log') tr' /\
    (fst (log_written E this) = false -> filename_log log' = EmptyString) /\
    (fst (save_written E this) = false -> filename_save log' = EmptyString) /\
    (fst (shot_written E this) = false ->
     filename_screenshot log' = EmptyString) /\
    (WritersFillPath E ->
     (filename_log log' <> EmptyString <-> fst (log_written E this) = true) /\
     (filename_save log' <> EmptyString <-> fst (save_written E this) = true) /\
     (filename_screenshot log' <> EmptyString
      <-> fst (shot_written E this) = true)) /\
    (strlen (dialog_text log') <= 1023 ->
     DisplayCrashDialog E log' tr' =
     Returned tt
       (tr' ++ [EvShowMacDialog crash_title
                  ("Please send the generated crash information and the last (auto)save to the developers. "
                   +++ "This will greatly help debugging. The correct place to do this is https://github.com/OpenTTD/OpenTTD/issues."
                   +++ nl +++ nl +++ "Generated file(s):" +++ nl
                   +++ kept_path (log_written E this) +++ nl
                   +++ kept_path (save_written E this) +++ nl
                   +++ kept_path (shot_written E this))
                  "Quit"])).
Proof.
  split; [reflexivity|].
  exists (fst (log_written E this) && fst (save_written E this)
          && fst (shot_written E this)), (made_log E this),
    (tr ++ made_events E this).
  split; [apply MakeCrashLog_run|].
  split; [apply kept_path_failed|].
  split; [apply kept_path_failed|].
  split; [apply kept_path_failed|].
  split.
  - intros (Hlog & Hsave & Hshot).
    specialize (Hlog (report_of E (signum this)) (filename_log this)).
    specialize (Hsave (filename_save this)).
    specialize (Hshot (filename_screenshot this)).
    unfold made_log. cbn [filename_log filename_save filename_screenshot].
    repeat split; try apply kept_path_filled;
      intros Hok; unfold kept_path; rewrite Hok; auto.
  - intros Hfits. rewrite DisplayCrashDialog_run.
    rewrite dialog_message_cut by apply no_nul_dialog_text.
    rewrite cut_all by exact Hfits. reflexivity.
Qed.

Lemma path_buffers_track_success_witness :
  exists log' tr',
    MakeCrashLog (sample_env false false None) (CrashLogOSX_new SIGSEGV) []
      = Returned (false, log') tr' /\
    paths log' = ["/home/u/crash.log"; EmptyString; "/home/u/crash.png"] /\
    DisplayCrashDialog (sample_env false false None) log' tr' =
    Returned tt
      (tr' ++ [EvShowMacDialog crash_title
                 ("Please send the generated crash information and the last (auto)save to the developers. This will greatly help debugging. The correct place to do this is https://github.com/OpenTTD/OpenTTD/issues."
                  +++ nl +++ nl +++ "Generated file(s):" +++ nl
                  +++ "/home/u/crash.log" +++ nl +++ nl +++ "/home/u/crash.png")
                 "Quit"]) /\
    (filename_save log' <> EmptyString <->
     fst (save_written (sample_env false false None) (CrashLogOSX_new SIGSEGV))
       = true).
Proof.
  destruct (path_buffers_track_success (sample_env false false None)
              (CrashLogOSX_new SIGSEGV) 0 [])
    as (_ & ret & log' & tr' & Hrun & Hlog & Hsave & Hshot & Hiff & Hdlg).
  pose proof Hrun as Hrun'.
  rewrite MakeCrashLog_run in Hrun'. injection Hrun' as Hret Hlog' Htr'.
  subst ret log' tr'.
  do 2 eexists. split; [exact Hrun|]. split; [reflexivity|].
  split.
  - apply Hdlg. vm_compute. discriminate.
  - apply (Hiff (sample_writers_fill_path false false None)).
Defined.

(** C8, as the specification states it, fails: on the full-report path
    of a process whose video driver has no GUI, two artifacts are written
    and no dialog is shown at all. *)
Lemma always_told_counterexample :
  let tr := trace_of (HandleCrash (sample_env false false (Some false))
                        SIGSEGV []) in
  count is_written tr = 2%nat /\
  count is_cleanup tr = 1%nat /\
  count is_dialog tr = 0%nat.
Proof. vm_compute. repeat split; reflexivity. Qed.

(** C8, amended.  On the full-report path, when no video driver is
    instantiated or the video driver has a GUI, exactly one dialog is
    shown, also when writes failed: its message is the text of
    DisplayCrashDialog cut to its array, which, when it has room there,
    lists the path of every artifact that was written and leaves the line
    of a failed one empty.  When the video driver has no GUI the
    full-report path shows no dialog.  When a guard fires, the only dialog
    is the notice that says no crash information will be generated. *)
Theorem user_is_told (E : Env) (signum : Z) :
  let tr := trace_of (HandleCrash E signum []) in
  let log' := made_log E (CrashLogOSX_new signum) in
  (env_GamelogTestEmergency E = false ->
   env_SaveloadCrashWithMissingNewGRFs E = false ->
   shows_dialog E = true ->
   filter is_dialog tr
     = [EvShowMacDialog crash_title (cut 1023 (dialog_text log')) "Quit"] /\
   (strlen (dialog_text log') <= 1023 ->
    cut 1023 (dialog_text log') = dialog_text log') /\
   paths log'
     = [kept_path (log_written E (CrashLogOSX_new signum));
        kept_path (save_written E (CrashLogOSX_new signum));
        kept_path (shot_written E (CrashLogOSX_new signum))]) /\
  (env_GamelogTestEmergency E = false ->
   env_SaveloadCrashWithMissingNewGRFs E = false ->
   shows_dialog E = false ->
   filter is_dialog tr = []) /\
  (env_GamelogTestEmergency E = true ->
   filter is_dialog tr = [emergency_notice]) /\
  (env_GamelogTestEmergency E = false ->
   env_SaveloadCrashWithMissingNewGRFs E = true ->
   filter is_dialog tr = [newgrf_notice]).
Proof.
  cbv zeta. split; [|split; [|split]].
  - intros He Hm Hs. split; [|split].
    + rewrite HandleCrash_full by assumption. cbn [trace_of].
      rewrite !filter_app. unfold dialog_events. rewrite Hs.
      rewrite dialog_message_cut by apply no_nul_dialog_text. reflexivity.
    + apply cut_all.
    + reflexivity.
  - intros He Hm Hs. rewrite HandleCrash_full by assumption. cbn [trace_of].
    rewrite !filter_app. unfold dialog_events. rewrite Hs. reflexivity.
  - intros He. rewrite HandleCrash_emergency by assumption. reflexivity.
  - intros He Hm. rewrite HandleCrash_missing_newgrfs by assumption.
    reflexivity.
Qed.

Lemma user_is_told_witness :
  filter is_dialog
    (trace_of (HandleCrash (sample_env false false (Some true)) SIGSEGV []))
  = [EvShowMacDialog crash_title
       ("Please send the generated crash information and the last (auto)save to the developers. This will greatly help debugging. The correct place to do this is https://github.com/OpenTTD/OpenTTD/issues."
        +++ nl +++ nl +++ "Generated file(s):" +++ nl
        +++ "/home/u/crash.log" +++ nl +++ nl +++ "/home/u/crash.png")
       "Quit"]
  /\ filter is_dialog
       (trace_of (HandleCrash (sample_env false false (Some false)) SIGSEGV []))
     = []
  /\ filter is_dialog
       (trace_of (HandleCrash (sample_env true false (Some true)) SIGSEGV []))
     = [emergency_notice]
  /\ filter is_dialog
       (trace_of (HandleCrash (sample_env false true (Some true)) SIGSEGV []))
     = [newgrf_notice].
Proof.
  split; [|split; [|split]].
  - destruct (user_is_told (sample_env false false (Some true)) SIGSEGV)
      as (Hfull & _).
    destruct (Hfull eq_refl eq_refl eq_refl) as (Hd & Hfit & _).
    rewrite Hd, Hfit; [reflexivity|]. vm_compute. discriminate.
  - apply (user_is_told (sample_env false false (Some false)) SIGSEGV);
      reflexivity.
  - apply (user_is_told (sample_env true false (Some true)) SIGSEGV);
      reflexivity.
  - apply (user_is_told (sample_env false true (Some true)) SIGSEGV);
      reflexivity.
Defined.

(* ================================================================== *)
(** * The claim about the report buffer *)
(* ================================================================== *)

Lemma Appends_sections_cons (cap : Z) (block : string) (blocks : list string) :
  Appends cap true (append_sections (cap - 1) (block :: blocks))
    (concat_text (block :: blocks)).
Proof.
  intros t buffer mem Hh. simpl.
  destruct (seprintf_holds cap _ block _ _ Hh) as (n & m & E & _ & H1 & T1).
  unfold bind. rewrite E.
  destruct (Appends_sections cap blocks _ _ _ H1) as (b2 & m2 & E2 & H2 & T2).
  exists b2, m2. split; [exact E2|]. split.
  - now rewrite append_assoc in H2.
  - intros _. apply T2. now right.
Qed.

(** C3.  Whatever is appended to a report buffer through seprintf and
    [last], be it a sequence of text blocks, the stack trace section or
    the whole report, every store stays inside the array and the array
    keeps its size; the array then holds the text cut to the characters
    it has room for, with the terminating NUL; when the text does not fit,
    the cut text and its NUL fill the array exactly to its last byte.  No
    write reports the overflow: each returns the advance of the cursor,
    and MakeCrashLog goes on to its three writers with the cut report. *)
Theorem report_writes_bounded (mem : CharArray)
    (Hcap : (0 < List.length mem)%nat) :
  (forall block blocks,
     BoundedWrite mem (append_sections (lastof mem) (block :: blocks) 0)
       (concat_text (block :: blocks))) /\
  (forall P,
     BoundedWrite mem (LogStacktrace P 0 (lastof mem)) (stacktrace_text P)) /\
  (forall H signum,
     BoundedWrite mem (FillCrashLog H signum 0 (lastof mem))
       (report_text H signum)) /\
  (forall E this tr,
     exists ret log',
       MakeCrashLog E this tr = Returned (ret, log') (tr ++ made_events E this) /\
       (no_nul (report_text (host E) (signum this)) ->
        report_of E (signum this)
          = cut 65535 (report_text (host E) (signum this)))).
Proof.
  split; [|split; [|split]].
  - intros block blocks.
    apply (Appends_BoundedWrite mem
             (append_sections (lastof mem) (block :: blocks))); [exact Hcap|].
    apply Appends_sections_cons.
  - intros P.
    apply (Appends_BoundedWrite mem
             (fun buffer => LogStacktrace P buffer (lastof mem))); [exact Hcap|].
    apply Appends_LogStacktrace.
  - intros H signum. now apply FillCrashLog_bounded.
  - intros E this tr. do 2 eexists. split; [apply MakeCrashLog_run|].
    intros Hn. unfold report_of.
    set (buffer := local_array (stack_junk E) 65536).
    assert (Hlen : Z.of_nat (List.length buffer) = 65536)
      by (apply local_array_length; lia).
    destruct (FillCrashLog_bounded (host E) (signum this) buffer)
      as (b & m & Efill & _ & _ & _ & _ & _ & Hstr); [lia|].
    rewrite Efill, (Hstr Hn), Hlen. reflexivity.
Qed.

(** Two blocks of twelve characters in all, appended to an array of
    eight chars: seven characters and the NUL are stored. *)
Lemma report_writes_bounded_witness :
  exists mem',
    append_sections 7 ["Crash "; "reason"] 0
      (local_array (fun _ => "x"%char) 8) = Some (7, mem') /\
    List.length mem' = 8%nat /\
    c_str mem' 0 = "Crash r".
Proof.
  assert (Hcap : (0 < List.length (local_array (fun _ => "x"%char) 8))%nat)
    by (vm_compute; lia).
  destruct (report_writes_bounded _ Hcap) as (Hblocks & _).
  destruct (Hblocks "Crash " ["reason"])
    as (b & m & Erun & Hlen & Hb & _ & _ & _ & Hstr).
  exists m. split; [|split].
  - rewrite Hb in Erun. exact Erun.
  - exact Hlen.
  - rewrite Hstr; [reflexivity|]. apply no_nul_literal. reflexivity.
Defined.

(* ================================================================== *)
(** * The claim about the stack walk *)
(* ================================================================== *)

Lemma Walk_length (P : Platform) (fuel : nat) :
  forall i frame, (List.length (Walk P fuel i frame) <= fuel)%nat.
Proof.
  induction fuel as [|fuel IH]; intros i frame; [simpl; lia|].
  rewrite Walk_unfold.
  destruct (negb (frame =? 0) && (i <? MAX_STACK_FRAMES)); [|simpl; lia].
  cbv zeta.
  destruct (frame_slot P frame (ip_slot (arch P)) =? 0); [simpl; lia|].
  destruct ((frame_slot P frame 0 <=? frame)
            || negb (IS_ALIGNED (arch P) (frame_slot P frame 0))).
  - simpl; lia.
  - simpl. specialize (IH (i + 1) (frame_slot P frame 0)). lia.
Qed.

Lemma Walk_indices (P : Platform) (fuel : nat) :
  forall i frame,
    map index_of (Walk P fuel i frame)
    = map (fun k => i + Z.of_nat k)
        (seq 0 (List.length (Walk P fuel i frame))).
Proof.
  induction fuel as [|fuel IH]; intros i frame; [reflexivity|].
  rewrite Walk_unfold.
  destruct (negb (frame =? 0) && (i <? MAX_STACK_FRAMES)); [|reflexivity].
  cbv zeta.
  destruct (frame_slot P frame (ip_slot (arch P)) =? 0); [reflexivity|].
  destruct ((frame_slot P frame 0 <=? frame)
            || negb (IS_ALIGNED (arch P) (frame_slot P frame 0))).
  - simpl. f_equal. unfold index_of. simpl. lia.
  - cbn [map List.length seq]. f_equal.
    + unfold index_of. simpl. lia.
    + rewrite IH, <- seq_shift, map_map.
      apply map_ext. intros k. lia.
Qed.

Lemma Walk_ips (P : Platform) (fuel : nat) :
  forall i frame f,
    In f (Walk P fuel i frame) ->
    ip_of f = return_address P (frame_of f) /\ ip_of f <> 0.
Proof.
  induction fuel as [|fuel IH]; intros i frame f; [simpl; tauto|].
  rewrite Walk_unfold.
  destruct (negb (frame =? 0) && (i <? MAX_STACK_FRAMES)); [|simpl; tauto].
  cbv zeta.
  destruct (Z.eqb_spec (frame_slot P frame (ip_slot (arch P))) 0) as [|Hip];
    [simpl; tauto|].
  assert (Hhere : forall g, g = (i, frame, frame_slot P frame (ip_slot (arch P))) ->
            ip_of g = return_address P (frame_of g) /\ ip_of g <> 0).
  { intros g ->. split; [reflexivity | exact Hip]. }
  destruct ((frame_slot P frame 0 <=? frame)
            || negb (IS_ALIGNED (arch P) (frame_slot P frame 0))).
  - intros [Hf|[]]. now apply Hhere.
  - intros [Hf|Hin]; [now apply Hhere | now apply (IH _ _ _ Hin)].
Qed.

Lemma Walk_chain (P : Platform) (fuel : nat) :
  forall i frame,
    match map frame_of (Walk P fuel i frame) with
    | [] => True
    | f0 :: rest => f0 = frame /\ follows P f0 rest
    end.
Proof.
  induction fuel as [|fuel IH]; intros i frame; [exact I|].
  rewrite Walk_unfold.
  destruct (negb (frame =? 0) && (i <? MAX_STACK_FRAMES)); [|exact I].
  cbv zeta.
  destruct (frame_slot P frame (ip_slot (arch P)) =? 0); [exact I|].
  destruct (Z.leb_spec (frame_slot P frame 0) frame) as [Hle|Hlt];
    [simpl; auto|].
  destruct (IS_ALIGNED (arch P) (frame_slot P frame 0)) eqn:Hal;
    [|simpl; auto].
  cbn [orb negb map]. split; [reflexivity|].
  specialize (IH (i + 1) (frame_slot P frame 0)).
  destruct (map frame_of (Walk P fuel (i + 1) (frame_slot P frame 0)))
    as [|f1 rest]; [exact I|].
  destruct IH as (-> & Hrest). simpl. auto.
Qed.

(** A walk that visits nothing, from a frame that is not null and below
    the cap: the return address read there is null. *)
Lemma Walk_nil (P : Platform) (fuel : nat) (i frame : Z) :
  frame <> 0 -> i < MAX_STACK_FRAMES ->
  Walk P (S fuel) i frame = [] ->
  return_address P frame = 0.
Proof.
  intros Hf Hi. rewrite Walk_unfold.
  replace (frame =? 0) with false by (symmetry; now apply Z.eqb_neq).
  replace (i <? MAX_STACK_FRAMES) with true by (symmetry; now apply Z.ltb_lt).
  cbn [negb andb]. cbv zeta. unfold return_address.
  destruct (Z.eqb_spec (frame_slot P frame (ip_slot (arch P))) 0);
    [auto | discriminate].
Qed.

Lemma frame_slot_nonneg (P : Platform) (frame k : Z) : 0 <= frame_slot P frame k.
Proof.
  unfold frame_slot, uintptr_t. apply Z.mod_pos_bound.
  unfold ptr_bits. destruct (is_lp64 (arch P)); reflexivity.
Qed.

(** A walk that ends below the cap ends behind a frame where one of the
    three ends is met. *)
Lemma Walk_last (P : Platform) (fuel : nat) :
  forall i frame,
    0 < frame -> 0 <= i -> fuel = Z.to_nat (MAX_STACK_FRAMES - i) ->
    Walk P fuel i frame <> [] ->
    (List.length (Walk P fuel i frame) < fuel)%nat ->
    stops_behind P (frame_of (last (Walk P fuel i frame) (0, 0, 0))) = true.
Proof.
  induction fuel as [|fuel IH]; intros i frame Hf Hi Hfuel Hne Hlen;
    [simpl in Hlen; lia|].
  revert Hne Hlen. rewrite Walk_unfold.
  destruct (negb (frame =? 0) && (i <? MAX_STACK_FRAMES)); [|congruence].
  cbv zeta.
  destruct (frame_slot P frame (ip_slot (arch P)) =? 0); [congruence|].
  unfold stops_behind, link.
  destruct ((frame_slot P frame 0 <=? frame)
            || negb (IS_ALIGNED (arch P) (frame_slot P frame 0))) eqn:Hstop.
  - intros _ _. cbn [last frame_of fst snd]. now rewrite Hstop.
  - intros _ Hlen. cbn [List.length] in Hlen.
    apply orb_false_elim in Hstop as [Hle _]. apply Z.leb_gt in Hle.
    destruct (Walk P fuel (i + 1) (frame_slot P frame 0)) as [|g rest] eqn:Hw.
    + cbn [last frame_of fst snd].
      destruct fuel as [|fuel']; [simpl in Hlen; lia|].
      rewrite (Walk_nil P fuel' (i + 1) (frame_slot P frame 0));
        [now rewrite orb_true_r | lia | lia | exact Hw].
    + change (last ((i, frame, frame_slot P frame (ip_slot (arch P))) :: g :: rest)
                (0, 0, 0))
        with (last (g :: rest) (0, 0, 0)).
      rewrite <- Hw. fold (link P (frame_of (last (Walk P fuel (i + 1) (frame_slot P frame 0)) (0, 0, 0)))).
      apply IH; try lia.
      * rewrite Hw. discriminate.
      * rewrite Hw. simpl in Hlen |- *. lia.
Qed.

(** Behind a frame that is not the last one visited, none of the three
    ends is met. *)
Lemma Walk_goes_on (P : Platform) (fuel : nat) :
  forall i frame k,
    (S k < List.length (Walk P fuel i frame))%nat ->
    stops_behind P (frame_of (nth k (Walk P fuel i frame) (0, 0, 0))) = false.
Proof.
  induction fuel as [|fuel IH]; intros i frame k; [simpl; lia|].
  rewrite Walk_unfold.
  destruct (negb (frame =? 0) && (i <? MAX_STACK_FRAMES)); [|simpl; lia].
  cbv zeta.
  destruct (frame_slot P frame (ip_slot (arch P)) =? 0); [simpl; lia|].
  destruct ((frame_slot P frame 0 <=? frame)
            || negb (IS_ALIGNED (arch P) (frame_slot P frame 0))) eqn:Hstop;
    [simpl; lia|].
  intros Hlen. cbn [List.length] in Hlen.
  destruct k as [|k].
  - cbn [nth frame_of fst snd]. unfold stops_behind, link. rewrite Hstop.
    cbn [orb].
    pose proof (Walk_chain P fuel (i + 1) (frame_slot P frame 0)) as Hch.
    destruct (Walk P fuel (i + 1) (frame_slot P frame 0)) as [|g rest] eqn:Hw;
      [simpl in Hlen; lia|].
    destruct (Walk_ips P fuel (i + 1) (frame_slot P frame 0) g) as (Hip & Hnz);
      [rewrite Hw; now left|].
    simpl in Hch. destruct Hch as (Hg & _).
    rewrite <- Hg, <- Hip. now apply Z.eqb_neq.
  - cbn [nth]. apply IH. lia.
Qed.

Lemma chain_below_last (P : Platform) (rest : list Z) :
  forall f x,
    chain_linked P (f :: rest) = true ->
    In x (f :: rest) -> x <= last (f :: rest) 0.
Proof.
  induction rest as [|f' rest IH]; intros f x Hch Hin.
  - destruct Hin as [<-|[]]. simpl. lia.
  - cbn [chain_linked] in Hch.
    apply andb_prop in Hch as [Hch Hrest].
    apply andb_prop in Hch as [Hch _].
    apply andb_prop in Hch as [_ Hlt]. apply Z.ltb_lt in Hlt.
    change (last (f :: f' :: rest) 0) with (last (f' :: rest) 0).
    destruct Hin as [<-|Hin].
    + specialize (IH f' f' Hrest (or_introl eq_refl)). lia.
    + now apply IH.
Qed.

(** A chain of frames whose last link does not point upwards is walked
    once, frame by frame, up to the cap. *)
Lemma Walk_chain_once (P : Platform) (fuel : nat) :
  forall i f rest,
    0 <= i -> fuel = Z.to_nat (MAX_STACK_FRAMES - i) ->
    0 < f ->
    chain_linked P (f :: rest) = true ->
    forallb (fun f => negb (return_address P f =? 0)) (f :: rest) = true ->
    link P (last (f :: rest) 0) <= last (f :: rest) 0 ->
    map frame_of (Walk P fuel i f) = firstn fuel (f :: rest).
Proof.
  induction fuel as [|fuel IH]; intros i f rest Hi Hfuel Hf Hch Hret Hback;
    [reflexivity|].
  rewrite Walk_unfold.
  replace (f =? 0) with false by (symmetry; apply Z.eqb_neq; lia).
  replace (i <? MAX_STACK_FRAMES) with true by (symmetry; apply Z.ltb_lt; lia).
  cbn [negb andb]. cbv zeta.
  cbn [forallb] in Hret. apply andb_prop in Hret as [Hip Hret].
  unfold return_address in Hip. apply negb_true_iff in Hip. rewrite Hip.
  destruct rest as [|f' rest].
  - cbn [last] in Hback. unfold link in Hback.
    replace (frame_slot P f 0 <=? f) with true by (symmetry; now apply Z.leb_le).
    cbn [orb map firstn]. now rewrite firstn_nil.
  - cbn [chain_linked] in Hch.
    apply andb_prop in Hch as [Hch Hrest].
    apply andb_prop in Hch as [Hch Hal].
    apply andb_prop in Hch as [Hlk Hlt].
    apply Z.eqb_eq in Hlk. apply Z.ltb_lt in Hlt. unfold link in Hlk.
    rewrite Hlk, Hal.
    replace (f' <=? f) with false by (symmetry; apply Z.leb_gt; lia).
    cbn [orb negb map firstn]. f_equal.
    apply IH; try lia; assumption.
Qed.

Lemma last_is_nth {A : Type} (l : list A) (d : A) :
  forall n, List.length l = S n -> last l d = nth n l d.
Proof.
  induction l as [|a l IH]; intros n Hl; [discriminate|].
  destruct l as [|b l].
  - simpl in Hl. injection Hl as <-. reflexivity.
  - destruct n as [|n]; [simpl in Hl; lia|].
    change (last (a :: b :: l) d) with (last (b :: l) d).
    cbn [nth]. apply IH. simpl in Hl |- *. lia.
Qed.

Lemma last_map_frame (l : list Frame) (d : Frame) :
  frame_of (last l d) = last (map frame_of l) (frame_of d).
Proof.
  induction l as [|a l IH]; [reflexivity|].
  destruct l as [|b l]; [reflexivity|].
  change (last (a :: b :: l) d) with (last (b :: l) d).
  rewrite IH. reflexivity.
Qed.

(** C2, as the specification states it, fails in its last part: in the
    sample process the frames 0, 1 and 2 lie at 1024, 2048 and 4096 and the
    link of frame 2 points back to frame 0; the walk visits frame 2 as
    well and ends there, not at frame 1. *)
Lemma walk_cycle_counterexample :
  synthetic_cycle sample_platform [1024; 2048; 4096] 2 = true /\
  link sample_platform 4096 = 1024 /\
  WalkFrom sample_platform = [(0, 1024, 77); (1, 2048, 88); (2, 4096, 99)] /\
  frame_of (last (WalkFrom sample_platform) (0, 0, 0))
    <> nth (2 - 1) [1024; 2048; 4096] 0.
Proof.
  vm_compute. repeat split; discriminate.
Qed.

(** C2, amended.  Whatever its body does, the loop of LogStacktrace runs
    it on the frames of the walk, in order.  The walk, from the non-null
    address of the current frame, visits at most 64 frames, numbered from
    0; every
    visited frame has a non-null return address; every visited frame
    behind the first is the one the link of the frame before it points
    to, strictly above it and aligned.  The walk goes on behind a frame
    exactly as long as none of the three ends is met there: the link is
    not strictly greater than the frame, the link is not aligned, or the
    return address read in the next frame is null; when the walk visits
    fewer than 64 frames, one of the three is met behind the last visited
    frame, or, when no frame is visited, the first return address is
    null.  On every synthetic chain of the frames 0 to N in which the link
    of frame N points back to frame N - 2, the walk visits each frame
    once, up to the cap of 64, and for N < 64 it ends at frame N, the
    frame that holds the backward link. *)
Theorem stack_walk_ends (P : Platform)
    (Hstart : uintptr_t (arch P) (frame_address P) <> 0) :
  let start := uintptr_t (arch P) (frame_address P) in
  let fs := WalkFrom P in
  (forall (St : Type) (visit : Z -> Z -> Z -> St -> St) (s : St),
     frames_loop P visit (Z.to_nat MAX_STACK_FRAMES) 0 start s =
     fold_left (fun s (f : Frame) => let '(i, fr, ip) := f in visit i fr ip s)
       fs s) /\
  (List.length fs <= 64)%nat /\
  map index_of fs = map Z.of_nat (seq 0 (List.length fs)) /\
  (forall f, In f fs ->
     ip_of f = return_address P (frame_of f) /\ ip_of f <> 0) /\
  match map frame_of fs with
  | [] => return_address P start = 0
  | f0 :: rest => f0 = start /\ follows P f0 rest
  end /\
  (forall k, (S k < List.length fs)%nat ->
     stops_behind P (frame_of (nth k fs (0, 0, 0))) = false) /\
  (fs <> [] -> (List.length fs < 64)%nat ->
     stops_behind P (frame_of (last fs (0, 0, 0))) = true) /\
  (forall chain N,
     synthetic_cycle P chain N = true ->
     map frame_of fs = firstn 64 chain /\
     ((N < 64)%nat ->
      map frame_of fs = chain /\
      frame_of (last fs (0, 0, 0)) = nth N chain 0)).
Proof.
  cbv zeta. unfold WalkFrom.
  set (start := uintptr_t (arch P) (frame_address P)) in *.
  assert (Hpos : 0 < start).
  { assert (0 <= start); [|lia].
    unfold start, uintptr_t. apply Z.mod_pos_bound.
    unfold ptr_bits. destruct (is_lp64 (arch P)); reflexivity. }
  split; [intros St visit s; apply frames_loop_fold|].
  change (Z.to_nat MAX_STACK_FRAMES) with 64%nat.
  split; [apply Walk_length|].
  split.
  { rewrite Walk_indices. apply map_ext. intros k. lia. }
  split; [apply Walk_ips|].
  split.
  { pose proof (Walk_chain P 64 0 start) as Hch.
    destruct (Walk P 64 0 start) as [|g rest] eqn:Hw; [|exact Hch].
    apply (Walk_nil P 63 0 start); [lia | reflexivity | exact Hw]. }
  split; [apply Walk_goes_on|].
  split.
  { intros Hne Hlen. apply Walk_last; try assumption; try lia. reflexivity. }
  intros chain N Hcyc. unfold synthetic_cycle in Hcyc.
  apply andb_prop in Hcyc as [Hcyc Hback].
  apply andb_prop in Hcyc as [Hcyc Hret].
  apply andb_prop in Hcyc as [Hcyc Hch].
  apply andb_prop in Hcyc as [Hcyc Hf0].
  apply andb_prop in Hcyc as [Hcyc Hhd].
  apply andb_prop in Hcyc as [Hlen HN].
  apply Nat.eqb_eq in Hlen. apply Nat.leb_le in HN.
  apply Z.eqb_eq in Hback. apply Z.eqb_eq in Hhd. apply Z.ltb_lt in Hf0.
  destruct chain as [|f0 rest]; [simpl in Hlen; lia|].
  cbn [nth] in Hhd, Hf0. fold start in Hhd. subst f0.
  assert (Hlast : last (start :: rest) 0 = nth N (start :: rest) 0)
    by (apply last_is_nth; lia).
  assert (Hwalk : map frame_of (Walk P 64 0 start) = firstn 64 (start :: rest)).
  { apply Walk_chain_once; try assumption; try lia; [reflexivity|].
    rewrite Hlast, Hback. rewrite <- Hlast.
    apply (chain_below_last P rest start); [exact Hch|].
    apply nth_In. lia. }
  split; [exact Hwalk|].
  intros HN64.
  assert (Hall : map frame_of (Walk P 64 0 start) = start :: rest).
  { rewrite Hwalk. apply firstn_all2. lia. }
  split; [exact Hall|].
  rewrite (last_map_frame _ (0, 0, 0)), Hall. exact Hlast.
Qed.

Lemma stack_walk_ends_witness :
  map frame_of (WalkFrom sample_platform) = [1024; 2048; 4096] /\
  frame_of (last (WalkFrom sample_platform) (0, 0, 0)) = 4096 /\
  stops_behind sample_platform 4096 = true.
Proof.
  assert (Hstart : uintptr_t (arch sample_platform)
                     (frame_address sample_platform) <> 0)
    by (vm_compute; discriminate).
  destruct (stack_walk_ends sample_platform Hstart)
    as (_ & _ & _ & _ & _ & _ & Hlast & Hcyc).
  destruct (Hcyc [1024; 2048; 4096] 2%nat eq_refl) as (_ & Hn).
  destruct Hn as (Hall & Hend); [lia|].
  split; [exact Hall|]. split; [exact Hend|].
  cbn [nth] in Hend. rewrite <- Hend. apply Hlast.
  - intros Hnil. rewrite Hnil in Hall. discriminate.
  - apply (f_equal (@List.length Z)) in Hall. rewrite length_map in Hall.
    rewrite Hall. simpl. lia.
Defined.

(* ================================================================== *)
(** * The claims about the line of a frame *)
(* ================================================================== *)

Lemma ptr_bits_cases (a : Arch) : ptr_bits a = 32 \/ ptr_bits a = 64.
Proof. unfold ptr_bits. destruct (is_lp64 a); auto. Qed.

(** [(intptr_t)x] is the one value of the signed range that differs from
    [x] by a multiple of the word. *)
Lemma intptr_t_range (a : Arch) (x : Z) :
  - 2 ^ (ptr_bits a - 1) <= intptr_t a x < 2 ^ (ptr_bits a - 1).
Proof.
  unfold intptr_t. cbv zeta.
  destruct (ptr_bits_cases a) as [-> | ->].
  - change (2 ^ (32 - 1)) with 2147483648. change (2 ^ 32) with 4294967296.
    pose proof (Z.mod_pos_bound x 4294967296 eq_refl).
    destruct (Z.ltb_spec (x mod 4294967296) 2147483648); lia.
  - change (2 ^ (64 - 1)) with 9223372036854775808.
    change (2 ^ 64) with 18446744073709551616.
    pose proof (Z.mod_pos_bound x 18446744073709551616 eq_refl).
    destruct (Z.ltb_spec (x mod 18446744073709551616) 9223372036854775808); lia.
Qed.

Lemma intptr_t_congruent (a : Arch) (x : Z) :
  exists k, intptr_t a x = x + k * 2 ^ ptr_bits a.
Proof.
  unfold intptr_t. cbv zeta.
  assert (Hm : 2 ^ ptr_bits a <> 0)
    by (destruct (ptr_bits_cases a) as [-> | ->]; discriminate).
  pose proof (Z.div_mod x (2 ^ ptr_bits a) Hm) as Hdm.
  destruct (x mod 2 ^ ptr_bits a <? 2 ^ (ptr_bits a - 1)).
  - exists (- (x / 2 ^ ptr_bits a)). lia.
  - exists (- (x / 2 ^ ptr_bits a) - 1). lia.
Qed.

Lemma intptr_t_exact (a : Arch) (x y k : Z) :
  - 2 ^ (ptr_bits a - 1) <= y < 2 ^ (ptr_bits a - 1) ->
  x = y + k * 2 ^ ptr_bits a ->
  intptr_t a x = y.
Proof.
  intros Hy Hx.
  pose proof (intptr_t_range a x) as Hr.
  destruct (intptr_t_congruent a x) as (k' & Hk').
  destruct (ptr_bits_cases a) as [Hb | Hb]; rewrite Hb in *.
  - change (2 ^ (32 - 1)) with 2147483648 in *.
    change (2 ^ 32) with 4294967296 in *. lia.
  - change (2 ^ (64 - 1)) with 9223372036854775808 in *.
    change (2 ^ 64) with 18446744073709551616 in *. lia.
Qed.

Lemma symbol_offset_signed (a : Arch) (ip saddr : Z) :
  - 2 ^ (ptr_bits a - 1) <= intptr_t a ip - intptr_t a saddr
    < 2 ^ (ptr_bits a - 1) ->
  symbol_offset a ip saddr = intptr_t a ip - intptr_t a saddr.
Proof.
  intros Hr. unfold symbol_offset.
  apply (intptr_t_exact a _ _ 0); [exact Hr | lia].
Qed.

Lemma symbol_offset_plain (a : Arch) (ip saddr : Z) :
  - 2 ^ (ptr_bits a - 1) <= ip - saddr < 2 ^ (ptr_bits a - 1) ->
  symbol_offset a ip saddr = ip - saddr.
Proof.
  intros Hr. unfold symbol_offset.
  destruct (intptr_t_congruent a ip) as (k1 & ->).
  destruct (intptr_t_congruent a saddr) as (k2 & ->).
  apply (intptr_t_exact a _ _ (k1 - k2)); [exact Hr | lia].
Qed.

(** A rendered [%ld] reads back as the number it was rendered from. *)
Lemma read_fmt_d (z : Z) : read_d (fmt_d z) = Some z.
Proof.
  unfold read_d, fmt_d.
  rewrite DecimalString.NilZero.isi.
  - simpl. now rewrite DecimalZ.of_to.
  - destruct z; simpl; try discriminate.
    intros Heq. injection Heq as Heq.
    now apply DecimalPos.Unsigned.to_uint_nonnil in Heq.
  - destruct z; simpl; try discriminate.
    intros Heq. injection Heq as Heq.
    now apply DecimalPos.Unsigned.to_uint_nonnil in Heq.
Qed.

Lemma fmt_d_negative (z : Z) :
  z < 0 -> exists digits, fmt_d z = "-" +++ digits.
Proof.
  intros Hz. destruct z as [|p|p]; try lia.
  unfold fmt_d. simpl. eexists. reflexivity.
Qed.

Lemma frame_text_symbol (P : Platform) (i fr ip : Z) (sname : string)
    (saddr : Z) :
  symbol_info (dladdr P ip) = Some (sname, saddr) ->
  frame_text P (i, fr, ip) =
  index_text i +++ image_text P ip
  +++ " (" +++ match cxa_demangle P sname with
               | Some demangled => demangled
               | None => sname
               end
  +++ " + " +++ fmt_d (symbol_offset (arch P) ip saddr) +++ ")" +++ nl.
Proof.
  intros Hsym. unfold frame_text. rewrite Hsym. unfold symbol_text.
  cbv zeta. now rewrite !append_assoc.
Qed.

Lemma symbol_offset_wrap (a : Arch) (ip saddr : Z) :
  exists k,
    -1 <= k <= 1 /\
    symbol_offset a ip saddr
    = uintptr_t a ip - uintptr_t a saddr + k * 2 ^ ptr_bits a.
Proof.
  pose proof (intptr_t_range a (intptr_t a ip - intptr_t a saddr)) as Hr.
  fold (symbol_offset a ip saddr) in Hr.
  assert (Hk : exists k0, symbol_offset a ip saddr
                          = ip - saddr + k0 * 2 ^ ptr_bits a).
  { unfold symbol_offset.
    destruct (intptr_t_congruent a ip) as (k1 & ->).
    destruct (intptr_t_congruent a saddr) as (k2 & ->).
    destruct (intptr_t_congruent a
                (ip + k1 * 2 ^ ptr_bits a - (saddr + k2 * 2 ^ ptr_bits a)))
      as (k3 & ->).
    exists (k1 - k2 + k3). lia. }
  destruct Hk as (k0 & Hk0).
  assert (Hm : 2 ^ ptr_bits a <> 0)
    by (destruct (ptr_bits_cases a) as [-> | ->]; discriminate).
  pose proof (Z.div_mod ip (2 ^ ptr_bits a) Hm) as Hip.
  pose proof (Z.div_mod saddr (2 ^ ptr_bits a) Hm) as Hsa.
  assert (Hbi : 0 <= ip mod 2 ^ ptr_bits a < 2 ^ ptr_bits a)
    by (apply Z.mod_pos_bound;
        destruct (ptr_bits_cases a) as [-> | ->]; reflexivity).
  assert (Hbs : 0 <= saddr mod 2 ^ ptr_bits a < 2 ^ ptr_bits a)
    by (apply Z.mod_pos_bound;
        destruct (ptr_bits_cases a) as [-> | ->]; reflexivity).
  unfold uintptr_t.
  exists (k0 + ip / 2 ^ ptr_bits a - saddr / 2 ^ ptr_bits a).
  destruct (ptr_bits_cases a) as [Hb | Hb]; rewrite Hb in *.
  - change (2 ^ (32 - 1)) with 2147483648 in *.
    change (2 ^ 32) with 4294967296 in *. lia.
  - change (2 ^ (64 - 1)) with 9223372036854775808 in *.
    change (2 ^ 64) with 18446744073709551616 in *. lia.
Qed.

(** C6, as the specification states it, fails: in the 32-bit sample the
    address 0x1000 lies below the start 0x90001000 of its symbol, no
    [intptr_t] subtraction overflows, and the line LogStacktrace writes
    shows the offset +1879048192, which is neither negative nor the
    difference of the two addresses. *)
Lemma offset_below_symbol_counterexample :
  WalkFrom wrapped_platform = [(0, 1032, 4096)] /\
  symbol_info (dladdr wrapped_platform 4096) = Some ("bar", 2415923200) /\
  4096 < 2415923200 /\
  intptr_t I386 4096 - intptr_t I386 2415923200 = 1879048192 /\
  symbol_offset I386 4096 2415923200 = 1879048192 /\
  symbol_offset I386 4096 2415923200 <> 4096 - 2415923200 /\
  option_map (fun r => c_str (snd r) 0)
    (LogStacktrace wrapped_platform 0 199 (local_array (fun _ => "x"%char) 200))
  = Some (nl +++ "Stacktrace:" +++ nl
          +++ " [00] libbar.dylib         0x00001000 (bar + 1879048192)" +++ nl
          +++ nl).
Proof. vm_compute. repeat split; discriminate. Qed.

(** C6, amended.  For every walked frame whose address resolves to a
    symbol, LogStacktrace writes, between the lines of the frames before
    and behind it, a line that ends in [" (name + offset)"] and a newline,
    where the offset is rendered as a signed decimal that reads back as
    the very number.  The number is [(intptr_t)address -
    (intptr_t)symbolStart] taken as a [long]: it lies in the range of
    [long] and differs from address minus symbol start by 0 or by one
    word, up or down.  It is that difference itself, of the [intptr_t]
    values and of the plain addresses alike, whenever the difference is
    one a [long] can hold, and then it is negative, and rendered with a
    minus sign, when the address lies below the start of the symbol. *)
Theorem symbol_offset_rendered (P : Platform) (mem : CharArray)
    (pre post : list Frame) (f : Frame) (sname : string) (saddr : Z)
    (Hcap : (0 < List.length mem)%nat)
    (Hwalk : WalkFrom P = pre ++ f :: post)
    (Hsym : symbol_info (dladdr P (ip_of f)) = Some (sname, saddr)) :
  let a := arch P in
  let ip := ip_of f in
  let off := symbol_offset a ip saddr in
  let line :=
    index_text (index_of f) +++ image_text P ip
    +++ " (" +++ match cxa_demangle P sname with
                 | Some demangled => demangled
                 | None => sname
                 end
    +++ " + " +++ fmt_d off +++ ")" +++ nl in
  BoundedWrite mem (LogStacktrace P 0 (lastof mem))
    (stacktrace_header +++ concat_text (map (frame_text P) pre)
     +++ line +++ concat_text (map (frame_text P) post) +++ nl) /\
  (forall cap, Appends cap true (log_frame P (cap - 1) (index_of f) ip) line) /\
  read_d (fmt_d off) = Some off /\
  (- 2 ^ (ptr_bits a - 1) <= off < 2 ^ (ptr_bits a - 1) /\
   exists k, -1 <= k <= 1 /\
             off = uintptr_t a ip - uintptr_t a saddr + k * 2 ^ ptr_bits a) /\
  (- 2 ^ (ptr_bits a - 1) <= intptr_t a ip - intptr_t a saddr
     < 2 ^ (ptr_bits a - 1) ->
   off = intptr_t a ip - intptr_t a saddr) /\
  (- 2 ^ (ptr_bits a - 1) <= ip - saddr < 2 ^ (ptr_bits a - 1) ->
   off = ip - saddr /\
   (ip < saddr -> off < 0 /\ exists digits, fmt_d off = "-" +++ digits)).
Proof.
  cbv zeta. destruct f as [[i fr] ip]. cbn [index_of ip_of fst snd] in *.
  pose proof (frame_text_symbol P i fr ip sname saddr Hsym) as Hline.
  split; [|split; [|split; [|split; [|split]]]].
  - assert (Ht : stacktrace_text P =
              stacktrace_header +++ concat_text (map (frame_text P) pre)
              +++ frame_text P (i, fr, ip)
              +++ concat_text (map (frame_text P) post) +++ nl).
    { unfold stacktrace_text. rewrite Hwalk, map_app, concat_text_app.
      cbn [map concat_text]. now rewrite !append_assoc. }
    rewrite <- Hline, <- Ht.
    apply (Appends_BoundedWrite mem
             (fun buffer => LogStacktrace P buffer (lastof mem)));
      [exact Hcap|].
    apply Appends_LogStacktrace.
  - intros cap. rewrite <- Hline. apply Appends_log_frame.
  - apply read_fmt_d.
  - split; [apply intptr_t_range | apply symbol_offset_wrap].
  - apply symbol_offset_signed.
  - intros Hr. pose proof (symbol_offset_plain _ _ _ Hr) as Hoff.
    split; [exact Hoff|]. intros Hlt.
    assert (Hneg : symbol_offset (arch P) ip saddr < 0) by lia.
    split; [exact Hneg | now apply fmt_d_negative].
Qed.

(** The first frame of the 64-bit sample: the address 77 resolves to a
    symbol that starts at 100, and the line shows the offset -23. *)
Lemma symbol_offset_rendered_witness :
  symbol_offset X86_64 77 100 = -23 /\
  exists mem',
    LogStacktrace sample_platform 0 199 (local_array (fun _ => "x"%char) 200)
      = Some (170, mem') /\
    c_str mem' 0 =
      nl +++ "Stacktrace:" +++ nl
      +++ " [00] libfoo.dylib         0x000000000000004d (_ZN3fooEv + -23)" +++ nl
      +++ " [01] openttd              0x0000000000000058" +++ nl
      +++ " [02] ???                  0x0000000000000063" +++ nl
      +++ nl.
Proof.
  assert (Hcap : (0 < List.length (local_array (fun _ => "x"%char) 200))%nat)
    by (vm_compute; lia).
  pose proof (symbol_offset_rendered sample_platform _ []
                [(1, 2048, 88); (2, 4096, 99)] (0, 1024, 77) "_ZN3fooEv" 100
                Hcap eq_refl eq_refl) as Hthm.
  cbv zeta in Hthm.
  destruct Hthm as [Hwrite [Hline [Hread [Hwrap [Hsigned Hplain]]]]].
  split.
  - apply Hplain. split; [apply Z.leb_le | apply Z.ltb_lt]; reflexivity.
  - destruct Hwrite as (b & m & Erun & _ & Hb & _ & _ & _ & Hstr).
    exists m. split.
    + rewrite Hb in Erun. exact Erun.
    + rewrite Hstr; [reflexivity|]. apply no_nul_literal. reflexivity.
Defined.

(** [strrchr] finds the last [c]: behind the character it returns there
    is no [c] any more. *)
Lemma strrchr_split (c : ascii) (s : string) :
  match strrchr s c with
  | Some r =>
    exists dir rest,
      s = dir +++ String c rest /\ r = String c rest /\ ~ In c (chars rest)
  | None => ~ In c (chars s)
  end.
Proof.
  induction s as [|a s IH]; simpl; [tauto|].
  destruct (strrchr s c) as [r|].
  - destruct IH as (dir & rest & -> & -> & Hno).
    exists (String a dir), rest. auto.
  - destruct (Ascii.eqb_spec a c) as [->|Hac].
    + exists EmptyString, s. auto.
    + unfold chars in *. simpl. intros [Heq|Hin]; [congruence | tauto].
Qed.

(** The image name is the part of the path behind its last slash. *)
Lemma image_name_component (dli : Dl_info) (path : string) :
  dli_fname dli = Some path ->
  exists dir,
    path = dir +++ image_name (Some dli) /\
    ~ In "/"%char (chars (image_name (Some dli))) /\
    (dir = EmptyString \/ exists d, dir = d +++ "/").
Proof.
  intros Hf. unfold image_name. rewrite Hf.
  pose proof (strrchr_split "/" path) as Hs.
  destruct (strrchr path "/") as [r|].
  - destruct Hs as (dir & rest & -> & -> & Hno).
    exists (dir +++ "/"). split; [|split].
    + now rewrite append_assoc.
    + exact Hno.
    + right. now exists dir.
  - exists EmptyString. auto.
Qed.

(** The frames the walk visits do not depend on the demangler. *)
Lemma Walk_with_demangle (P : Platform) (demangle : string -> option string)
    (fuel : nat) :
  forall i frame,
    Walk (with_demangle P demangle) fuel i frame = Walk P fuel i frame.
Proof.
  induction fuel as [|fuel IH]; intros i frame; [reflexivity|].
  rewrite !Walk_unfold. cbv zeta. rewrite IH. reflexivity.
Qed.

(** C7.  The body of the loop appends, for a frame with index [i] and
    return address [ip], the index, the image name padded to 20
    characters, the address, a symbol part and a newline.  The image name
    is ["???"] when dladdr fails or names no image, and otherwise the
    part of the image path behind its last slash.  Without a resolved
    symbol the symbol part is empty; with one it shows the demangled name
    when __cxa_demangle returns one and the raw symbol name unchanged when
    it does not.  Whatever the demangler answers, the same frames are
    walked, and LogStacktrace writes the header, the line of every walked
    frame and the closing newline. *)
Theorem frame_line_rendering (P : Platform) (i fr ip : Z) :
  (forall cap,
     Appends cap true (log_frame P (cap - 1) i ip)
       (" [" +++ fmt_02d i +++ "]"
        +++ " " +++ fmt_s20 (image_name (dladdr P ip))
        +++ " " +++ PRINTF_PTR (arch P) ip
        +++ match symbol_info (dladdr P ip) with
            | Some (sname, saddr) =>
              " (" +++ match cxa_demangle P sname with
                       | Some demangled => demangled
                       | None => sname
                       end
              +++ " + " +++ fmt_d (symbol_offset (arch P) ip saddr) +++ ")"
            | None => EmptyString
            end
        +++ nl)) /\
  (dladdr P ip = None -> image_name (dladdr P ip) = "???") /\
  (forall dli,
     dladdr P ip = Some dli -> dli_fname dli = None ->
     image_name (dladdr P ip) = "???") /\
  (forall dli path,
     dladdr P ip = Some dli -> dli_fname dli = Some path ->
     exists dir,
       path = dir +++ image_name (dladdr P ip) /\
       ~ In "/"%char (chars (image_name (dladdr P ip))) /\
       (dir = EmptyString \/ exists d, dir = d +++ "/")) /\
  (symbol_info (dladdr P ip) = None ->
   frame_text P (i, fr, ip) = index_text i +++ image_text P ip +++ nl) /\
  (forall sname saddr demangled,
     symbol_info (dladdr P ip) = Some (sname, saddr) ->
     cxa_demangle P sname = Some demangled ->
     frame_text P (i, fr, ip) =
     index_text i +++ image_text P ip +++ " (" +++ demangled +++ " + "
     +++ fmt_d (symbol_offset (arch P) ip saddr) +++ ")" +++ nl) /\
  (forall sname saddr,
     symbol_info (dladdr P ip) = Some (sname, saddr) ->
     cxa_demangle P sname = None ->
     frame_text P (i, fr, ip) =
     index_text i +++ image_text P ip +++ " (" +++ sname +++ " + "
     +++ fmt_d (symbol_offset (arch P) ip saddr) +++ ")" +++ nl) /\
  (forall demangle mem,
     (0 < List.length mem)%nat ->
     WalkFrom (with_demangle P demangle) = WalkFrom P /\
     BoundedWrite mem (LogStacktrace (with_demangle P demangle) 0 (lastof mem))
       (stacktrace_header
        +++ concat_text (map (frame_text (with_demangle P demangle)) (WalkFrom P))
        +++ nl)).
Proof.
  split; [|split; [|split; [|split; [|split; [|split; [|split]]]]]].
  - intros cap.
    assert (Htext : frame_text P (i, fr, ip) =
              " [" +++ fmt_02d i +++ "]"
              +++ " " +++ fmt_s20 (image_name (dladdr P ip))
              +++ " " +++ PRINTF_PTR (arch P) ip
              +++ match symbol_info (dladdr P ip) with
                  | Some (sname, saddr) =>
                    " (" +++ match cxa_demangle P sname with
                             | Some demangled => demangled
                             | None => sname
                             end
                    +++ " + " +++ fmt_d (symbol_offset (arch P) ip saddr) +++ ")"
                  | None => EmptyString
                  end
              +++ nl).
    { unfold frame_text, index_text, image_text, symbol_text.
      destruct (symbol_info (dladdr P ip)) as [[sname saddr]|];
        cbv zeta; now rewrite !append_assoc. }
    rewrite <- Htext. apply Appends_log_frame.
  - now intros ->.
  - intros dli -> Hf. simpl. now rewrite Hf.
  - intros dli path -> Hf. now apply image_name_component.
  - intros Hsym. unfold frame_text. now rewrite Hsym.
  - intros sname saddr demangled Hsym Hd.
    rewrite (frame_text_symbol P i fr ip sname saddr Hsym). now rewrite Hd.
  - intros sname saddr Hsym Hd.
    rewrite (frame_text_symbol P i fr ip sname saddr Hsym). now rewrite Hd.
  - intros demangle mem Hlen.
    assert (Hw : WalkFrom (with_demangle P demangle) = WalkFrom P)
      by apply Walk_with_demangle.
    split; [exact Hw|].
    rewrite <- Hw.
    apply (Appends_BoundedWrite mem
             (fun buffer =>
                LogStacktrace (with_demangle P demangle) buffer (lastof mem)));
      [exact Hlen|].
    apply Appends_LogStacktrace.
Qed.

(** The three lines of the sample process, whose demangler always fails,
    in an array of 200 chars. *)
Lemma frame_line_rendering_witness :
  exists mem',
    LogStacktrace sample_platform 0 199 (local_array (fun _ => "x"%char) 200)
      = Some (170, mem') /\
    c_str mem' 0 =
      nl +++ "Stacktrace:" +++ nl
      +++ " [00] libfoo.dylib         0x000000000000004d (_ZN3fooEv + -23)" +++ nl
      +++ " [01] openttd              0x0000000000000058" +++ nl
      +++ " [02] ???                  0x0000000000000063" +++ nl
      +++ nl.
Proof.
  assert (Hlen : (0 < List.length (local_array (fun _ => "x"%char) 200))%nat)
    by (vm_compute; lia).
  destruct (frame_line_rendering sample_platform 0 1024 77)
    as (_ & _ & _ & _ & _ & _ & _ & Htrace).
  destruct (Htrace (fun _ => None) _ Hlen)
    as (_ & b & m & Erun & _ & Hb & _ & _ & _ & Hstr).
  exists m. split.
  - rewrite Hb in Erun. exact Erun.
  - rewrite Hstr; [reflexivity|]. apply no_nul_literal. reflexivity.
Defined.

(* ================================================================== *)
(** * Further properties: the handler and the signal table *)
(* ================================================================== *)

Lemma HandleCrash_ends (E : Env) (signum : Z) (tr0 : list Event) :
  exists calls,
    HandleCrash E signum tr0 = Aborted (tr0 ++ calls ++ [EvAbort]) /\
    count is_abort calls = 0%nat /\
    calls = removelast (trace_of (HandleCrash E signum [])).
Proof.
  destruct (env_GamelogTestEmergency E) eqn:He.
  - rewrite !HandleCrash_emergency by exact He.
    exists (restore_events ++ [EvGamelogTestEmergency true; emergency_notice]).
    split; [now rewrite <- !app_assoc|]. split; reflexivity.
  - destruct (env_SaveloadCrashWithMissingNewGRFs E) eqn:Hm.
    + rewrite !HandleCrash_missing_newgrfs by assumption.
      exists (restore_events
              ++ [EvGamelogTestEmergency false;
                  EvSaveloadCrashWithMissingNewGRFs true; newgrf_notice]).
      split; [now rewrite <- !app_assoc|]. split; reflexivity.
    + rewrite !HandleCrash_full by assumption.
      exists (restore_events
              ++ [EvGamelogTestEmergency false;
                  EvSaveloadCrashWithMissingNewGRFs false]
              ++ made_events E (CrashLogOSX_new signum)
              ++ dialog_events E (made_log E (CrashLogOSX_new signum))
              ++ [EvAfterCrashLogCleanup]).
      split; [now rewrite <- !app_assoc|]. split.
      * rewrite !count_app, dialog_events_abort. reflexivity.
      * cbn [trace_of]. rewrite app_nil_l.
        change [EvAfterCrashLogCleanup; EvAbort]
          with ([EvAfterCrashLogCleanup] ++ [EvAbort]).
        rewrite !app_assoc. now rewrite removelast_last.
Qed.




Lemma is_handled_spec (sig : Z) :
  is_handled sig = true <-> In sig _signals_to_handle.
Proof.
  unfold is_handled. rewrite existsb_exists. split.
  - intros (x & Hin & Heq). apply Z.eqb_eq in Heq. now subst.
  - intros Hin. exists sig. split; [exact Hin | apply Z.eqb_refl].
Qed.

Lemma dispositions_signal_all (d : Disposition) (tbl : Z -> Disposition)
    (sig : Z) :
  dispositions tbl (map (fun s => EvSignal s d) _signals_to_handle) sig
  = if is_handled sig then d else tbl sig.
Proof.
  unfold is_handled, _signals_to_handle, SIGSEGV, SIGABRT, SIGFPE, SIGBUS,
    SIGILL, SIGSYS.
  cbn [map dispositions existsb].
  destruct (sig =? 11), (sig =? 6), (sig =? 8), (sig =? 10), (sig =? 4),
    (sig =? 12); reflexivity.
Qed.

Lemma dispositions_HandleCrash (E : Env) (signum : Z)
    (tbl : Z -> Disposition) (sig : Z) :
  dispositions tbl (trace_of (HandleCrash E signum [])) sig
  = if is_handled sig then SIG_DFL else tbl sig.
Proof.
  destruct (HandleCrash_opening E signum) as (rest & -> & Hrest).
  rewrite dispositions_app.
  rewrite (dispositions_no_signal
             (EvGamelogTestEmergency (env_GamelogTestEmergency E) :: rest)).
  - apply (dispositions_signal_all SIG_DFL).
  - change (EvGamelogTestEmergency (env_GamelogTestEmergency E) :: rest)
      with ([EvGamelogTestEmergency (env_GamelogTestEmergency E)] ++ rest).
    rewrite count_app, Hrest. reflexivity.
Qed.

(** X2.  When HandleCrash has run, the six signals of
    [_signals_to_handle] are at their default disposition and every other
    signal has the disposition it had on entry: the handler changes no
    other entry of the signal table. *)
Theorem HandleCrash_touches_its_signals_only (E : Env) (signum : Z)
    (tbl : Z -> Disposition) (sig : Z) :
  dispositions tbl (trace_of (HandleCrash E signum [])) sig
  = if is_handled sig then SIG_DFL else tbl sig.
Proof. apply dispositions_HandleCrash. Qed.

(** X3.  GamelogTestEmergency is consulted exactly once in every run;
    SaveloadCrashWithMissingNewGRFs is consulted once when the first guard
    answered false, and not at all when it answered true. *)
Theorem guards_consulted_in_turn (E : Env) (signum : Z) :
  count is_emergency_test (trace_of (HandleCrash E signum [])) = 1%nat /\
  count is_newgrf_test (trace_of (HandleCrash E signum []))
  = (if env_GamelogTestEmergency E then 0 else 1)%nat.
Proof.
  destruct (env_GamelogTestEmergency E) eqn:He.
  - rewrite HandleCrash_emergency by exact He. split; reflexivity.
  - destruct (env_SaveloadCrashWithMissingNewGRFs E) eqn:Hm.
    + rewrite HandleCrash_missing_newgrfs by assumption. split; reflexivity.
    + rewrite HandleCrash_full by assumption. cbn [trace_of].
      rewrite !count_app. unfold dialog_events.
      destruct (shows_dialog E); split; reflexivity.
Qed.

(** X4.  InitialiseCrashLog returns after six calls of signal(): it binds
    the six signals of [_signals_to_handle] to HandleCrash and leaves
    every other signal as it was; calling it a second time changes
    nothing. *)
Theorem InitialiseCrashLog_arms (tr : list Event) (tbl : Z -> Disposition)
    (sig : Z) :
  InitialiseCrashLog tr
  = Returned tt
      (tr ++ map (fun s => EvSignal s SIG_HandleCrash) _signals_to_handle) /\
  dispositions tbl (trace_of (InitialiseCrashLog [])) sig
  = (if is_handled sig then SIG_HandleCrash else tbl sig) /\
  dispositions tbl
    (trace_of ((_ <~ InitialiseCrashLog ;; InitialiseCrashLog) [])) sig
  = dispositions tbl (trace_of (InitialiseCrashLog [])) sig.
Proof.
  unfold InitialiseCrashLog, pbind. rewrite !signal_all_run.
  split; [reflexivity|]. cbn [trace_of app]. split.
  - apply (dispositions_signal_all SIG_HandleCrash).
  - rewrite dispositions_app, !(dispositions_signal_all SIG_HandleCrash).
    now destruct (is_handled sig).
Qed.

Lemma HandleCrash_trace_from (E : Env) (signum : Z) (tr0 : list Event) :
  trace_of (HandleCrash E signum tr0)
  = tr0 ++ trace_of (HandleCrash E signum []).
Proof.
  destruct (HandleCrash_ends E signum tr0) as (calls & -> & _ & ->).
  destruct (HandleCrash_ends E signum []) as (calls' & Hrun & _ & _).
  rewrite Hrun. cbn [trace_of app]. now rewrite removelast_last.
Qed.

(** X5.  Arming and firing undo each other on the signal table: in a
    process whose six signals were at their default disposition,
    InitialiseCrashLog followed by HandleCrash leaves every signal as it
    was before InitialiseCrashLog. *)
Theorem arm_then_crash_restores_table (E : Env) (signum : Z)
    (tbl : Z -> Disposition)
    (Hdfl : forall sig, In sig _signals_to_handle -> tbl sig = SIG_DFL) :
  forall sig,
    dispositions tbl
      (trace_of ((_ <~ InitialiseCrashLog ;; HandleCrash E signum) [])) sig
    = tbl sig.
Proof.
  intros sig. unfold InitialiseCrashLog, pbind. rewrite signal_all_run.
  rewrite HandleCrash_trace_from, dispositions_app, dispositions_HandleCrash.
  destruct (is_handled sig) eqn:Hh.
  - symmetry. apply Hdfl. now apply is_handled_spec.
  - cbn [app]. rewrite (dispositions_signal_all SIG_HandleCrash). now rewrite Hh.
Qed.

Lemma arm_then_crash_restores_table_witness :
  dispositions (fun _ => SIG_DFL)
    (trace_of ((_ <~ InitialiseCrashLog ;;
                HandleCrash (sample_env true false None) SIGBUS) [])) SIGBUS
  = SIG_DFL.
Proof.
  apply (arm_then_crash_restores_table (sample_env true false None) SIGBUS
           (fun _ => SIG_DFL)).
  intros sig _. reflexivity.
Defined.

(** X6.  On the full-report path with a dialog, the dialog is shown only
    after all three artifact writes were made, and it is the last call
    before the cleanup hook and abort(). *)
Theorem dialog_follows_the_writes (E : Env) (signum : Z)
    (He : env_GamelogTestEmergency E = false)
    (Hm : env_SaveloadCrashWithMissingNewGRFs E = false)
    (Hs : shows_dialog E = true) :
  exists pre message,
    HandleCrash E signum []
    = Aborted (pre ++ [EvShowMacDialog crash_title message "Quit";
                       EvAfterCrashLogCleanup; EvAbort]) /\
    count is_artifact_call pre = 3%nat /\
    count is_dialog pre = 0%nat.
Proof.
  rewrite HandleCrash_full by assumption. unfold dialog_events. rewrite Hs.
  exists (restore_events
          ++ [EvGamelogTestEmergency false;
              EvSaveloadCrashWithMissingNewGRFs false]
          ++ made_events E (CrashLogOSX_new signum)),
    (dialog_message E (made_log E (CrashLogOSX_new signum))).
  split; [now rewrite <- !app_assoc|].
  rewrite !count_app. split; reflexivity.
Qed.

Lemma dialog_follows_the_writes_witness :
  exists pre message,
    HandleCrash (sample_env false false None) SIGILL []
    = Aborted (pre ++ [EvShowMacDialog crash_title message "Quit";
                       EvAfterCrashLogCleanup; EvAbort]) /\
    count is_artifact_call pre = 3%nat /\
    count is_dialog pre = 0%nat.
Proof.
  apply (dialog_follows_the_writes (sample_env false false None) SIGILL);
    reflexivity.
Defined.

(* ================================================================== *)
(** * Further properties: MakeCrashLog and DisplayCrashDialog *)
(* ================================================================== *)



Lemma until_nul_length (l : list ascii) :
  forall k, nth_error l k = Some NUL ->
            (String.length (until_nul l) <= k)%nat.
Proof.
  induction l as [|c l IH]; intros k Hk.
  - destruct k; discriminate.
  - simpl. destruct (Ascii.eqb_spec c NUL) as [->|Hc]; [simpl; lia|].
    destruct k as [|k]; simpl in Hk.
    + congruence.
    + simpl. specialize (IH k Hk). lia.
Qed.

(** X8.  DisplayCrashDialog always returns after exactly one call of
    ShowMacDialog, with the fixed title and the button "Quit"; however
    long the three paths are, nothing is stored outside the array of 1024
    chars and the message has at most 1023 characters; for paths without
    NUL it is the formatted text cut to its first 1023 characters. *)
Theorem DisplayCrashDialog_bounded (E : Env) (this : CrashLogOSX)
    (tr : list Event) :
  exists message,
    DisplayCrashDialog E this tr
    = Returned tt (tr ++ [EvShowMacDialog crash_title message "Quit"]) /\
    strlen message <= 1023 /\
    (no_nul (dialog_text this) -> message = cut 1023 (dialog_text this)).
Proof.
  exists (dialog_message E this).
  split; [apply DisplayCrashDialog_run|]. split.
  - unfold dialog_message.
    set (message := local_array (stack_junk E) 1024).
    assert (Hlen : Z.of_nat (List.length message) = 1024)
      by (apply local_array_length; lia).
    assert (Hpos : (0 < List.length message)%nat) by lia.
    destruct (seprintf_holds _ _ (dialog_text this) _ _
                (Holds_start message Hpos))
      as (n & m & Es & Hn & Hh & T).
    unfold lastof. rewrite Es. unfold c_str. simpl skipn.
    unfold Terminated in T. apply until_nul_length in T.
    pose proof (strlen_nonneg (dialog_text this)).
    unfold strlen. lia.
  - apply dialog_message_cut.
Qed.

(** Three paths of 400 characters each: the message is cut to 1023. *)
Lemma DisplayCrashDialog_bounded_witness :
  let long := replicate 400 "p" in
  let this := {| signum := 11; filename_log := long;
                 filename_save := long; filename_screenshot := long |} in
  exists message,
    DisplayCrashDialog (sample_env false false None) this []
    = Returned tt ([] ++ [EvShowMacDialog crash_title message "Quit"]) /\
    strlen message = 1023.
Proof.
  cbv zeta.
  destruct (DisplayCrashDialog_bounded (sample_env false false None)
              {| signum := 11; filename_log := replicate 400 "p";
                 filename_save := replicate 400 "p";
                 filename_screenshot := replicate 400 "p" |} [])
    as (message & Hrun & _ & Hcut).
  exists message. split; [exact Hrun|].
  rewrite Hcut; [vm_compute; reflexivity|].
  apply no_nul_literal. vm_compute. reflexivity.
Defined.

(* ================================================================== *)
(** * Further properties: the sections and the report buffer *)
(* ================================================================== *)

Lemma Appends_run_part (cap : Z) (H : Host) (signum : Z) (p : Part) :
  Appends cap true (run_part H signum (cap - 1) p) (part_text H signum p).
Proof.
  destruct p as [|message|]; simpl.
  - apply Appends_LogOSVersion.
  - apply Appends_LogError.
  - apply Appends_LogStacktrace.
Qed.

Lemma Appends_run_parts (cap : Z) (H : Host) (signum : Z) (p : Part)
    (ps : list Part) :
  Appends cap true (run_parts H signum (cap - 1) (p :: ps))
    (concat_text (map (part_text H signum) (p :: ps))).
Proof.
  revert p. induction ps as [|q ps IH]; intros p t buffer mem Hh.
  - destruct (Appends_run_part cap H signum p t buffer mem Hh)
      as (b & m & E & Hh' & T).
    cbn [run_parts map concat_text]. unfold bind, ret. rewrite E.
    rewrite append_nil_r. eauto.
  - destruct (Appends_run_part cap H signum p t buffer mem Hh)
      as (b & m & E & Hh' & T).
    destruct (IH q _ _ _ Hh') as (b2 & m2 & E2 & H2 & T2).
    change (run_parts H signum (cap - 1) (p :: q :: ps) buffer mem)
      with (bind (run_part H signum (cap - 1) p buffer)
              (run_parts H signum (cap - 1) (q :: ps)) mem).
    unfold bind at 1. rewrite E.
    exists b2, m2. split; [exact E2|]. split.
    + cbn [map concat_text] in H2 |- *. now rewrite append_assoc in H2.
    + intros _. apply T2. now left.
Qed.

(** X9.  LogOSVersion, LogError and LogStacktrace compose through the
    cursor they take and return: called one after the other in any order
    and any number of times, each starting where the one before stopped,
    they stay inside the array and leave in it the texts of the sections
    in the order of the calls, cut to the room there is and terminated. *)
Theorem sections_compose_in_any_order (mem : CharArray)
    (Hcap : (0 < List.length mem)%nat)
    (H : Host) (signum : Z) (p : Part) (ps : list Part) :
  BoundedWrite mem (run_parts H signum (lastof mem) (p :: ps) 0)
    (concat_text (map (part_text H signum) (p :: ps))).
Proof.
  apply (Appends_BoundedWrite mem
           (run_parts H signum (lastof mem) (p :: ps))); [exact Hcap|].
  apply Appends_run_parts.
Qed.

(** The cause before the environment, in an array of 40 chars. *)
Lemma sections_compose_in_any_order_witness :
  exists mem',
    run_parts sample_host 11 39 [PartError "oops"; PartOSVersion] 0
      (local_array (fun _ => "x"%char) 40) = Some (39, mem') /\
    c_str mem' 0
    = "Crash reason:" +++ nl +++ " Signal:  Segmentation fa".
Proof.
  assert (Hcap : (0 < List.length (local_array (fun _ => "x"%char) 40))%nat)
    by (vm_compute; lia).
  destruct (sections_compose_in_any_order _ Hcap sample_host 11
              (PartError "oops") [PartOSVersion])
    as (b & m & Erun & _ & Hb & _ & _ & _ & Hstr).
  exists m. split.
  - rewrite Hb in Erun. exact Erun.
  - rewrite Hstr; [reflexivity|]. apply no_nul_literal. reflexivity.
Defined.

Lemma list_eq_by_prefix {A : Type} (l l' : list A) (n : nat) :
  List.length l = S n -> List.length l' = S n ->
  firstn n l = firstn n l' ->
  nth_error l n = nth_error l' n ->
  l = l'.
Proof.
  intros Hl Hl' Hpre Hnth.
  rewrite <- (firstn_skipn n l), <- (firstn_skipn n l'). f_equal; [exact Hpre|].
  rewrite <- !hd_error_skipn in Hnth.
  pose proof (length_skipn n l) as Hs. pose proof (length_skipn n l') as Hs'.
  destruct (skipn n l) as [|x [|y r]]; simpl in Hs; try lia.
  destruct (skipn n l') as [|x' [|y' r']]; simpl in Hs'; try lia.
  simpl in Hnth. congruence.
Qed.

(** X10.  Once the report buffer is full, a further section is dropped
    whole: run on an array that holds a text of at least [cap - 1]
    characters, cut and terminated, LogOSVersion, LogError and
    LogStacktrace return the cursor they were given and leave every byte
    of the array as it was. *)
Theorem full_buffer_is_left_alone (cap : Z) (t : string) (buffer : Z)
    (mem : CharArray) (H : Host) (signum : Z) (p : Part)
    (Hh : Holds cap t buffer mem)
    (Hterm : Terminated mem buffer)
    (Hfull : cap - 1 <= strlen t) :
  run_part H signum (cap - 1) p buffer mem = Some (buffer, mem).
Proof.
  destruct (Appends_run_part cap H signum p t buffer mem Hh)
    as (b & m & E & Hh' & T).
  destruct Hh as [Hcap Hrange Hcur Hcont].
  destruct Hh' as [Hcap' Hrange' Hcur' Hcont'].
  rewrite strlen_app in Hcur'.
  pose proof (strlen_nonneg (part_text H signum p)) as Hs.
  assert (Hb : b = buffer) by lia.
  clear Hcur'. subst b.
  assert (Hbuf : buffer = cap - 1) by lia.
  rewrite E. f_equal. f_equal.
  apply (list_eq_by_prefix m mem (Z.to_nat buffer)); try lia.
  - rewrite Hcont', Hcont, chars_app, firstn_app.
    rewrite chars_length.
    replace (Z.to_nat (cap - 1) - String.length t)%nat with 0%nat
      by (unfold strlen in Hfull; lia).
    simpl. now rewrite app_nil_r.
  - unfold Terminated in *. rewrite Hterm. apply T. now left.
Qed.

(** An array of 8 chars that holds "Crash r" of "Crash reason". *)
Lemma full_buffer_is_left_alone_witness :
  LogStacktrace sample_platform 7 7 (chars "Crash r" ++ [NUL])
  = Some (7, chars "Crash r" ++ [NUL]).
Proof.
  apply (full_buffer_is_left_alone 8 "Crash reason" 7 (chars "Crash r" ++ [NUL])
           sample_host 11 PartStacktrace).
  - constructor; [reflexivity | lia | reflexivity | reflexivity].
  - reflexivity.
  - vm_compute. discriminate.
Defined.

(** X11.  When the frame address is null or the return address of the
    first frame is null, the walk visits no frame and the stack trace
    section is its header followed by an empty line. *)
Theorem empty_walk_section (P : Platform) (mem : CharArray)
    (Hcap : (0 < List.length mem)%nat)
    (Hnone : start_frame P = 0 \/ return_address P (start_frame P) = 0) :
  WalkFrom P = [] /\
  BoundedWrite mem (LogStacktrace P 0 (lastof mem))
    (nl +++ "Stacktrace:" +++ nl +++ nl).
Proof.
  assert (Hw : WalkFrom P = []).
  { unfold WalkFrom. change (Z.to_nat MAX_STACK_FRAMES) with 64%nat.
    rewrite Walk_unfold. fold (start_frame P).
    destruct (Z.eqb_spec (start_frame P) 0) as [H0|H0]; [reflexivity|].
    destruct Hnone as [Hn|Hn]; [contradiction|].
    cbn [negb andb]. cbv zeta. unfold return_address in Hn.
    rewrite Hn. reflexivity. }
  split; [exact Hw|].
  assert (Ht : stacktrace_text P = nl +++ "Stacktrace:" +++ nl +++ nl).
  { unfold stacktrace_text. rewrite Hw. reflexivity. }
  rewrite <- Ht.
  apply (Appends_BoundedWrite mem
           (fun buffer => LogStacktrace P buffer (lastof mem))); [exact Hcap|].
  apply Appends_LogStacktrace.
Qed.

Lemma empty_walk_section_witness :
  WalkFrom {| arch := PPC; frame_address := 0; memory := sample_memory;
              dladdr := sample_dladdr; cxa_demangle := fun _ => None |} = [].
Proof.
  apply (empty_walk_section _ [NUL]); [simpl; lia|].
  left. reflexivity.
Defined.

(* ================================================================== *)
(** * Further properties: the frames of the walk *)
(* ================================================================== *)

Lemma follows_above (P : Platform) (rest : list Z) :
  forall f x, follows P f rest -> In x rest -> f < x.
Proof.
  induction rest as [|next rest IH]; intros f x Hf Hin; [destruct Hin|].
  destruct Hf as (_ & Hlt & _ & Hrest).
  destruct Hin as [<-|Hin]; [exact Hlt|].
  specialize (IH next x Hrest Hin). lia.
Qed.

Lemma follows_increasing (P : Platform) (rest : list Z) :
  forall f j k,
    follows P f rest ->
    (j < k < List.length (f :: rest))%nat ->
    nth j (f :: rest) 0 < nth k (f :: rest) 0.
Proof.
  induction rest as [|next rest IH]; intros f j k Hf Hjk.
  - simpl in Hjk. lia.
  - destruct k as [|k]; [lia|].
    destruct j as [|j].
    + change (nth 0 (f :: next :: rest) 0) with f.
      change (nth (S k) (f :: next :: rest) 0) with (nth k (next :: rest) 0).
      assert (Hin : In (nth k (next :: rest) 0) (next :: rest))
        by (apply nth_In; simpl in Hjk |- *; lia).
      exact (follows_above P (next :: rest) f _ Hf Hin).
    + cbn [nth]. destruct Hf as (_ & _ & _ & Hrest).
      apply IH; [exact Hrest|]. simpl in Hjk |- *. lia.
Qed.

Lemma follows_aligned (P : Platform) (rest : list Z) :
  forall f x, follows P f rest -> In x rest -> IS_ALIGNED (arch P) x = true.
Proof.
  induction rest as [|next rest IH]; intros f x Hf Hin; [destruct Hin|].
  destruct Hf as (_ & _ & Hal & Hrest).
  destruct Hin as [<-|Hin]; [exact Hal|]. exact (IH next x Hrest Hin).
Qed.

(** X12.  The frame pointers of the frames the walk visits increase
    strictly from one visited frame to every later one, so no frame is
    visited twice, and every visited frame behind the first passes
    IS_ALIGNED. *)
Theorem walk_frames_increase (P : Platform) (j k : nat)
    (Hjk : (j < k < List.length (WalkFrom P))%nat) :
  frame_of (nth j (WalkFrom P) (0, 0, 0))
    < frame_of (nth k (WalkFrom P) (0, 0, 0)) /\
  IS_ALIGNED (arch P) (frame_of (nth k (WalkFrom P) (0, 0, 0))) = true.
Proof.
  pose proof (Walk_chain P (Z.to_nat MAX_STACK_FRAMES) 0
                (uintptr_t (arch P) (frame_address P))) as Hch.
  change (Walk P (Z.to_nat MAX_STACK_FRAMES) 0
            (uintptr_t (arch P) (frame_address P))) with (WalkFrom P) in Hch.
  assert (Hnth : forall n,
             frame_of (nth n (WalkFrom P) (0, 0, 0))
             = nth n (map frame_of (WalkFrom P)) 0)
    by (intros n; symmetry; apply (map_nth frame_of (WalkFrom P) (0, 0, 0))).
  rewrite !Hnth. clear Hnth.
  rewrite <- (length_map frame_of) in Hjk.
  revert Hch Hjk.
  destruct (map frame_of (WalkFrom P)) as [|f0 rest];
    [simpl; lia|].
  intros (_ & Hfol) Hjk. split.
  - now apply (follows_increasing P rest f0 j k).
  - destruct k as [|k]; [lia|]. cbn [nth].
    apply (follows_aligned P rest f0); [exact Hfol|].
    apply nth_In. simpl in Hjk. lia.
Qed.

Lemma walk_frames_increase_witness :
  frame_of (nth 0 (WalkFrom sample_platform) (0, 0, 0))
    < frame_of (nth 2 (WalkFrom sample_platform) (0, 0, 0)) /\
  IS_ALIGNED X86_64 (frame_of (nth 2 (WalkFrom sample_platform) (0, 0, 0)))
    = true.
Proof.
  apply (walk_frames_increase sample_platform 0 2). vm_compute. lia.
Defined.

Lemma Walk_frames_positive (P : Platform) (fuel : nat) :
  forall i frame f,
    0 <= frame -> In f (Walk P fuel i frame) -> 0 < frame_of f.
Proof.
  induction fuel as [|fuel IH]; intros i frame f Hframe; [simpl; tauto|].
  rewrite Walk_unfold.
  destruct (Z.eqb_spec frame 0) as [H0|H0]; [simpl; tauto|].
  destruct (i <? MAX_STACK_FRAMES); [|simpl; tauto].
  cbn [negb andb]. cbv zeta.
  destruct (frame_slot P frame (ip_slot (arch P)) =? 0); [simpl; tauto|].
  destruct ((frame_slot P frame 0 <=? frame)
            || negb (IS_ALIGNED (arch P) (frame_slot P frame 0))).
  - intros [<-|[]]. unfold frame_of. simpl. lia.
  - intros [<-|Hin]; [unfold frame_of; simpl; lia|].
    apply (IH (i + 1) (frame_slot P frame 0)); [|exact Hin].
    apply frame_slot_nonneg.
Qed.

Lemma start_frame_nonneg (P : Platform) : 0 <= start_frame P.
Proof.
  unfold start_frame, uintptr_t. apply Z.mod_pos_bound.
  unfold ptr_bits. destruct (is_lp64 (arch P)); reflexivity.
Qed.

(** X13.  The walk never visits a null frame, and a visited frame whose
    link is null, the mark of the outermost frame, is the last frame
    visited. *)
Theorem null_link_ends_walk (P : Platform) (k : nat)
    (Hk : (k < List.length (WalkFrom P))%nat) :
  frame_of (nth k (WalkFrom P) (0, 0, 0)) <> 0 /\
  (link P (frame_of (nth k (WalkFrom P) (0, 0, 0))) = 0 ->
   S k = List.length (WalkFrom P)).
Proof.
  assert (Hpos : 0 < frame_of (nth k (WalkFrom P) (0, 0, 0))).
  { apply (Walk_frames_positive P (Z.to_nat MAX_STACK_FRAMES) 0
             (start_frame P)); [apply start_frame_nonneg|].
    apply nth_In. exact Hk. }
  split; [lia|]. intros Hlink.
  destruct (Nat.eq_dec (S k) (List.length (WalkFrom P))) as [Heq|Hne];
    [exact Heq|].
  assert (Hlt : (S k < List.length (WalkFrom P))%nat) by lia.
  assert (Hgo : stops_behind P (frame_of (nth k (WalkFrom P) (0, 0, 0)))
                = false)
    by (apply (Walk_goes_on P (Z.to_nat MAX_STACK_FRAMES) 0 (start_frame P));
        exact Hlt).
  unfold stops_behind in Hgo. rewrite Hlink in Hgo.
  replace (0 <=? frame_of (nth k (WalkFrom P) (0, 0, 0))) with true in Hgo
    by (symmetry; apply Z.leb_le; lia).
  discriminate.
Qed.

Lemma null_link_ends_walk_witness :
  frame_of (nth 2 (WalkFrom sample_platform) (0, 0, 0)) <> 0.
Proof.
  apply (null_link_ends_walk sample_platform 2). vm_compute. lia.
Defined.

(** The walk reads the two slots of the frame it stands at, and goes on
    only to a link that lies above the frame and is aligned. *)
Lemma Walk_local (P P' : Platform) (fuel : nat) :
  arch P = arch P' ->
  forall i f,
    (forall g,
        g = f \/
        (exists h, In h (map frame_of (Walk P fuel i f)) /\
                   g = link P h /\ h < g /\ IS_ALIGNED (arch P) g = true) ->
        link P' g = link P g /\ return_address P' g = return_address P g) ->
    Walk P' fuel i f = Walk P fuel i f.
Proof.
  intros Harch. induction fuel as [|fuel IH]; intros i f Hagree; [reflexivity|].
  destruct (Hagree f (or_introl eq_refl)) as [Hl Hr].
  unfold link, return_address in Hl, Hr. rewrite <- Harch in Hr.
  rewrite Walk_unfold in Hagree. rewrite !Walk_unfold. cbv zeta in *.
  rewrite <- Harch, Hl, Hr.
  destruct (negb (f =? 0) && (i <? MAX_STACK_FRAMES)); [|reflexivity].
  destruct (frame_slot P f (ip_slot (arch P)) =? 0); [reflexivity|].
  destruct (Z.leb_spec (frame_slot P f 0) f) as [Hle|Hlt]; [reflexivity|].
  destruct (IS_ALIGNED (arch P) (frame_slot P f 0)) eqn:Hal; [|reflexivity].
  cbn [orb negb] in *. f_equal. apply IH.
  intros g [->|(h & Hin & Hg)]; apply Hagree; right.
  - exists f. split; [now left|]. unfold link. auto.
  - exists h. split; [now right | exact Hg].
Qed.

(** X14.  The walk depends on the memory of the process only through the
    link and the return address of the frames it reads: two processes of
    the same architecture that start at the same frame and agree on these
    two slots, at the start frame and at every link of a visited frame
    that lies above it and is aligned, are walked alike.  What a link that
    points downwards or is misaligned points to is never read, and neither
    dladdr nor the demangler has a say. *)
Theorem walk_reads_entered_frames_only (P P' : Platform)
    (Harch : arch P = arch P')
    (Hstart : start_frame P = start_frame P')
    (Hagree :
       forall g,
         g = start_frame P \/
         (exists h, In h (map frame_of (WalkFrom P)) /\
                    g = link P h /\ h < g /\ IS_ALIGNED (arch P) g = true) ->
         link P' g = link P g /\ return_address P' g = return_address P g) :
  WalkFrom P' = WalkFrom P.
Proof.
  unfold WalkFrom. fold (start_frame P) (start_frame P'). rewrite <- Hstart.
  now apply Walk_local.
Qed.

(** The sample process with other bytes at 1025 and above 8192, where no
    frame lies, and with no symbols at all. *)
Lemma walk_reads_entered_frames_only_witness :
  WalkFrom {| arch := X86_64; frame_address := 1024;
              memory := fun a => if (a =? 1025) || (8192 <=? a) then 12345
                                 else sample_memory a;
              dladdr := fun _ => None;
              cxa_demangle := fun _ => Some "f()" |}
  = WalkFrom sample_platform.
Proof.
  apply (walk_reads_entered_frames_only sample_platform);
    [reflexivity | reflexivity|].
  intros g [->|(h & Hin & -> & Hlt & Hal)]; [split; reflexivity|].
  change (map frame_of (WalkFrom sample_platform)) with [1024; 2048; 4096]
    in Hin.
  destruct Hin as [<-|[<-|[<-|[]]]]; split; reflexivity.
Defined.

(* ================================================================== *)
(** * Further properties: the columns of a line *)
(* ================================================================== *)

(** X15.  IS_ALIGNED tests the address modulo 16: an address passes when
    it is a multiple of 16, and on i386 when it is 8 more than one. *)
Theorem IS_ALIGNED_modulo_16 (a : Arch) (addr : Z) :
  IS_ALIGNED a addr = true <-> addr mod 16 = (if is_i386 a then 8 else 0).
Proof.
  unfold IS_ALIGNED, uintptr_t.
  change 15 with (Z.ones 4). rewrite Z.land_ones by lia.
  rewrite Z.mod_mod_divide.
  - change (2 ^ 4) with 16. destruct (is_i386 a); apply Z.eqb_eq.
  - destruct (ptr_bits_cases a) as [-> | ->].
    + exists (2 ^ 28). reflexivity.
    + exists (2 ^ 60). reflexivity.
Qed.

Lemma length_append (a b : string) :
  String.length (a +++ b) = (String.length a + String.length b)%nat.
Proof. induction a as [|c a IH]; simpl; [reflexivity | now rewrite IH]. Qed.

Lemma replicate_length (n : nat) (c : ascii) :
  String.length (replicate n c) = n.
Proof. induction n as [|n IH]; simpl; [reflexivity | now rewrite IH]. Qed.

Lemma pad_left_length (c : ascii) (w : nat) (s : string) :
  String.length (pad_left c w s) = Nat.max w (String.length s).
Proof. unfold pad_left. rewrite length_append, replicate_length. lia. Qed.

Lemma pad_right_length (w : nat) (s : string) :
  String.length (pad_right w s) = Nat.max w (String.length s).
Proof. unfold pad_right. rewrite length_append, replicate_length. lia. Qed.

Lemma of_hex_uint_acc_lower (d : Hexadecimal.uint) :
  forall acc,
    Z.pos acc * 16 ^ Z.of_nat (Hexadecimal.nb_digits d)
    <= Z.pos (Pos.of_hex_uint_acc d acc).
Proof.
  induction d; intros acc; cbn [Pos.of_hex_uint_acc Hexadecimal.nb_digits];
    [change (16 ^ Z.of_nat 0) with 1; lia | ..];
    rewrite Nat2Z.inj_succ, Z.pow_succ_r by lia;
    match goal with
    | |- _ <= Z.pos (Pos.of_hex_uint_acc _ ?acc') =>
      specialize (IHd acc');
      assert (0 < 16 ^ Z.of_nat (Hexadecimal.nb_digits d))
        by (apply Z.pow_pos_nonneg; lia);
      nia
    end.
Qed.

(** A number below [16 ^ k] is rendered with at most [k] digits. *)
Lemma hex_digits_bound (n : N) (k : nat) :
  (0 < k)%nat -> Z.of_N n < 16 ^ Z.of_nat k ->
  (Hexadecimal.nb_digits (N.to_hex_uint n) <= k)%nat.
Proof.
  intros Hk Hn. destruct n as [|p]; [simpl; lia|].
  cbn [N.to_hex_uint].
  pose proof (HexadecimalPos.Unsigned.of_to p) as Hof.
  pose proof (HexadecimalPos.Unsigned.to_of (Pos.to_hex_uint p)) as Hto.
  rewrite Hof in Hto. cbn [N.to_hex_uint] in Hto.
  pose proof (HexadecimalPos.Unsigned.to_uint_nonnil p) as Hnil.
  pose proof (HexadecimalPos.Unsigned.to_uint_nonzero p) as Hzero.
  destruct (Pos.to_hex_uint p) as [|d|d|d|d|d|d|d|d|d|d|d|d|d|d|d|d];
    [congruence | ..].
  1: { exfalso. rewrite HexadecimalFacts.unorm_D0 in Hto.
       unfold Hexadecimal.unorm in Hto.
       pose proof (HexadecimalFacts.nzhead_nonzero d) as Hnz.
       destruct (Hexadecimal.nzhead d) eqn:Hd; try discriminate.
       - injection Hto as Hto. subst d. now apply Hzero.
       - now apply (Hnz u). }
  all: cbn [Pos.of_hex_uint] in Hof; injection Hof as Hof;
    cbn [Hexadecimal.nb_digits];
    match type of Hof with
    | Pos.of_hex_uint_acc _ ?acc = _ =>
      pose proof (of_hex_uint_acc_lower d acc) as Hlow
    end;
    rewrite Hof in Hlow;
    assert (Hpow : 16 ^ Z.of_nat (Hexadecimal.nb_digits d) < 16 ^ Z.of_nat k)
      by (assert (0 < 16 ^ Z.of_nat (Hexadecimal.nb_digits d))
            by (apply Z.pow_pos_nonneg; lia);
          change (Z.of_N (N.pos p)) with (Z.pos p) in Hn; nia);
    apply Z.pow_lt_mono_r_iff in Hpow; lia.
Qed.

Lemma string_of_uint_length (d : Hexadecimal.uint) :
  String.length (HexadecimalString.NilEmpty.string_of_uint d)
  = Hexadecimal.nb_digits d.
Proof. induction d; simpl; congruence. Qed.

Lemma to_hex_uint_nonnil (n : N) : N.to_hex_uint n <> Hexadecimal.Nil.
Proof.
  destruct n as [|p]; [discriminate|].
  apply HexadecimalPos.Unsigned.to_uint_nonnil.
Qed.

Lemma fmt_x_length (z : Z) (k : nat) :
  (0 < k)%nat -> 0 <= z < 16 ^ Z.of_nat k ->
  (String.length (fmt_x z) <= k)%nat.
Proof.
  intros Hk Hz. unfold fmt_x.
  pose proof (to_hex_uint_nonnil (Z.to_N z)) as Hnil.
  pose proof (hex_digits_bound (Z.to_N z) k Hk) as Hb.
  rewrite Z2N.id in Hb by lia. specialize (Hb (proj2 Hz)).
  unfold HexadecimalString.NilZero.string_of_uint.
  destruct (N.to_hex_uint (Z.to_N z)) eqn:Hd; [congruence | ..];
    rewrite string_of_uint_length; exact Hb.
Qed.

Lemma read_x_fmt_x (z : Z) : 0 <= z -> read_x (fmt_x z) = Some z.
Proof.
  intros Hz. unfold read_x, fmt_x.
  rewrite HexadecimalString.NilZero.usu by apply to_hex_uint_nonnil.
  simpl. rewrite HexadecimalN.Unsigned.of_to. f_equal. lia.
Qed.

Lemma read_x_zeros (k : nat) (s : string) :
  s <> EmptyString -> read_x (replicate k "0" +++ s) = read_x s.
Proof.
  intros Hs. induction k as [|k IH]; [reflexivity|].
  cbn [replicate String.append].
  rewrite <- IH. unfold read_x.
  destruct (replicate k "0" +++ s) as [|c r] eqn:Hr.
  - destruct k; simpl in Hr; [congruence | discriminate].
  - cbn [HexadecimalString.NilZero.uint_of_string
         HexadecimalString.NilEmpty.uint_of_string].
    destruct (HexadecimalString.uint_of_char c
                (HexadecimalString.NilEmpty.uint_of_string r));
      reflexivity.
Qed.

Lemma fmt_x_nonempty (z : Z) : fmt_x z <> EmptyString.
Proof.
  unfold fmt_x, HexadecimalString.NilZero.string_of_uint.
  pose proof (to_hex_uint_nonnil (Z.to_N z)) as Hnil.
  destruct (N.to_hex_uint (Z.to_N z)); try congruence; discriminate.
Qed.

Lemma uintptr_t_range (a : Arch) (x : Z) :
  0 <= uintptr_t a x < 2 ^ ptr_bits a.
Proof.
  unfold uintptr_t. apply Z.mod_pos_bound.
  destruct (ptr_bits_cases a) as [-> | ->]; reflexivity.
Qed.

Lemma PRINTF_PTR_digits (a : Arch) (p : Z) :
  exists digits,
    PRINTF_PTR a p = "0x" +++ digits /\
    String.length digits = (if is_lp64 a then 16 else 8)%nat /\
    read_x digits = Some (uintptr_t a p).
Proof.
  pose proof (uintptr_t_range a p) as Hr.
  unfold PRINTF_PTR, ptr_bits in *.
  destruct (is_lp64 a).
  - exists (pad_left "0" 16 (fmt_x (uintptr_t a p))).
    split; [reflexivity|]. split.
    + rewrite pad_left_length.
      pose proof (fmt_x_length (uintptr_t a p) 16) as Hl.
      change (16 ^ Z.of_nat 16) with (2 ^ 64) in Hl. lia.
    + unfold pad_left. rewrite read_x_zeros by apply fmt_x_nonempty.
      apply read_x_fmt_x. lia.
  - exists (pad_left "0" 8 (fmt_x (uintptr_t a p))).
    split; [reflexivity|]. split.
    + rewrite pad_left_length.
      pose proof (fmt_x_length (uintptr_t a p) 8) as Hl.
      change (16 ^ Z.of_nat 8) with (2 ^ 32) in Hl. lia.
    + unfold pad_left. rewrite read_x_zeros by apply fmt_x_nonempty.
      apply read_x_fmt_x. lia.
Qed.

Lemma PRINTF_PTR_length (a : Arch) (p : Z) :
  String.length (PRINTF_PTR a p) = (if is_lp64 a then 18 else 10)%nat.
Proof.
  destruct (PRINTF_PTR_digits a p) as (digits & -> & Hl & _).
  rewrite length_append, Hl. now destruct (is_lp64 a).
Qed.

(** X16.  PRINTF_PTR renders every pointer in a field of fixed width:
    "0x" followed by exactly 16 hexadecimal digits on LP64 and exactly 8
    otherwise, and the digits read back as the address, so that two
    different addresses are never rendered alike. *)
Theorem PRINTF_PTR_fixed_width (a : Arch) (p : Z) :
  exists digits,
    PRINTF_PTR a p = "0x" +++ digits /\
    String.length digits = (if is_lp64 a then 16 else 8)%nat /\
    read_x digits = Some (uintptr_t a p).
Proof. apply PRINTF_PTR_digits. Qed.

Lemma Walk_index_range (P : Platform) (fuel : nat) :
  forall i frame f,
    In f (Walk P fuel i frame) -> i <= index_of f < MAX_STACK_FRAMES.
Proof.
  induction fuel as [|fuel IH]; intros i frame f; [simpl; tauto|].
  rewrite Walk_unfold.
  destruct (negb (frame =? 0)); [|simpl; tauto].
  destruct (Z.ltb_spec i MAX_STACK_FRAMES) as [Hi|Hi]; [|simpl; tauto].
  cbn [andb]. cbv zeta.
  destruct (frame_slot P frame (ip_slot (arch P)) =? 0); [simpl; tauto|].
  destruct ((frame_slot P frame 0 <=? frame)
            || negb (IS_ALIGNED (arch P) (frame_slot P frame 0))).
  - intros [<-|[]]. unfold index_of. simpl. lia.
  - intros [<-|Hin]; [unfold index_of; simpl; lia|].
    specialize (IH _ _ _ Hin). lia.
Qed.

Lemma fmt_02d_two_digits (i : Z) :
  0 <= i < 100 -> String.length (fmt_02d i) = 2%nat.
Proof.
  intros Hi.
  assert (Hall : forallb (fun n => (String.length (fmt_02d (Z.of_nat n)) =? 2)%nat)
                   (seq 0 100) = true) by (vm_compute; reflexivity).
  rewrite forallb_forall in Hall.
  specialize (Hall (Z.to_nat i)). rewrite Z2Nat.id in Hall by lia.
  apply Nat.eqb_eq, Hall, in_seq. lia.
Qed.

(** X17.  In every line of the stack trace the index has two digits, so
    the index field is five characters wide, and when the image name has
    at most 20 characters the address ends at a fixed column: the line up
    to the end of the address is 45 characters long on LP64 and 37
    otherwise.  A longer image name is never cut: it moves the address to
    the right. *)
Theorem trace_line_columns (P : Platform) (f : Frame)
    (Hin : In f (WalkFrom P)) :
  let name := image_name (dladdr P (ip_of f)) in
  String.length (index_text (index_of f)) = 5%nat /\
  String.length (index_text (index_of f) +++ image_text P (ip_of f))
  = (27 + (Nat.max 20 (String.length name) - 20)
     + (if is_lp64 (arch P) then 18 else 10))%nat /\
  exists blanks,
    fmt_s20 name = name +++ blanks /\
    String.length blanks = (20 - String.length name)%nat.
Proof.
  cbv zeta.
  pose proof (Walk_index_range P _ _ _ _ Hin) as Hi.
  assert (Hidx : String.length (index_text (index_of f)) = 5%nat).
  { unfold index_text. rewrite !length_append, fmt_02d_two_digits; [reflexivity|].
    unfold MAX_STACK_FRAMES in Hi. lia. }
  split; [exact Hidx|]. split.
  - rewrite length_append, Hidx. unfold image_text, fmt_s20.
    rewrite !length_append, pad_right_length, PRINTF_PTR_length.
    simpl String.length. destruct (is_lp64 (arch P)); lia.
  - exists (replicate (20 - String.length (image_name (dladdr P (ip_of f)))) " ").
    split; [reflexivity | apply replicate_length].
Qed.

Lemma trace_line_columns_witness :
  String.length (index_text 1 +++ image_text sample_platform 88) = 45%nat.
Proof.
  destruct (trace_line_columns sample_platform (1, 2048, 88)) as (_ & Hw & _).
  - vm_compute. right. left. reflexivity.
  - exact Hw.
Defined.

Lemma strrchr_none (c : ascii) (s : string) :
  ~ In c (chars s) -> strrchr s c = None.
Proof.
  intros Hno. pose proof (strrchr_split c s) as Hs.
  destruct (strrchr s c) as [r|]; [|reflexivity].
  destruct Hs as (dir & rest & -> & _ & _).
  exfalso. apply Hno. rewrite chars_app. apply in_or_app. right. now left.
Qed.

Lemma strrchr_joined (c : ascii) (rest : string) :
  ~ In c (chars rest) ->
  forall dir, strrchr (dir +++ String c rest) c = Some (String c rest).
Proof.
  intros Hno. induction dir as [|a dir IH]; simpl.
  - rewrite (strrchr_none c rest Hno). now rewrite Ascii.eqb_refl.
  - now rewrite IH.
Qed.

(** X18.  The image name undoes the joining of a directory and a file
    name: for a name without a slash, the image name of the path
    directory, slash, name is the name, whatever slashes the directory
    holds, and the image name of the bare name is the name itself. *)
Theorem image_name_of_joined_path (dli : Dl_info) (dir name : string)
    (Hname : ~ In "/"%char (chars name)) :
  (dli_fname dli = Some (dir +++ "/" +++ name) ->
   image_name (Some dli) = name) /\
  (dli_fname dli = Some name -> image_name (Some dli) = name).
Proof.
  split; intros Hf; unfold image_name; rewrite Hf.
  - change ("/" +++ name) with (String "/" name).
    now rewrite (strrchr_joined "/" name Hname dir).
  - now rewrite (strrchr_none "/" name Hname).
Qed.

Lemma image_name_of_joined_path_witness :
  image_name (Some {| dli_fname := Some "/Applications/OpenTTD.app/Contents/MacOS/openttd";
                      dli_sname := None; dli_saddr := 0 |}) = "openttd".
Proof.
  refine (proj1 (image_name_of_joined_path _
                   "/Applications/OpenTTD.app/Contents/MacOS" "openttd" _) _).
  - vm_compute. intuition discriminate.
  - reflexivity.
Defined.

Lemma IS_ALIGNED_modulo_16_witness :
  IS_ALIGNED X86_64 4096 = true /\ IS_ALIGNED I386 4104 = true.
Proof.
  split.
  - apply (IS_ALIGNED_modulo_16 X86_64 4096). reflexivity.
  - apply (IS_ALIGNED_modulo_16 I386 4104). reflexivity.
Defined.
